(** * mise-tasks-discover-action: task parser and change detector

    A shallow embedding of [src/task-parser.ts] (parseMiseTasks,
    filterByPrefix, groupByProject) and of [src/change-detector.ts]
    (filterByChangedSources), with the properties of the pipeline stated
    and proved over it.

    JavaScript strings are modelled as [string]; the built-ins the code calls
    ([startsWith], [indexOf], [slice], [Array.prototype.join]) are written out
    in [Module Js] with the index conventions of the language ([indexOf]
    answers [-1] on a miss, [slice] clamps its bounds). *)

From Stdlib Require Import ZArith List Bool Lia.
From Stdlib Require Import Strings.String Strings.Ascii.
From Stdlib Require Import DecimalString Permutation.
Import ListNotations.

Open Scope string_scope.
Open Scope Z_scope.

(* ================================================================== *)
(** ** JavaScript string built-ins *)

Module Js.

(** [s.startsWith(p)]: character-by-character comparison, nothing else. *)
Fixpoint startsWith (s p : string) {struct p} : bool :=
  match p, s with
  | EmptyString, _ => true
  | String a p', String b s' => Ascii.eqb a b && startsWith s' p'
  | String _ _, EmptyString => false
  end.

(** The first [n] characters of [s], all of it when [s] is shorter. *)
Fixpoint take (n : nat) (s : string) : string :=
  match n, s with
  | S n', String c s' => String c (take n' s')
  | _, _ => EmptyString
  end.

(** [s] without its first [n] characters. *)
Fixpoint drop (n : nat) (s : string) : string :=
  match n, s with
  | S n', String _ s' => drop n' s'
  | _, _ => s
  end.

(** How [slice] reads a bound: a negative one counts from the end, and
    both kinds are clamped to [0 .. len]. *)
Definition relIndex (len k : Z) : Z :=
  if k <? 0 then Z.max (len + k) 0 else Z.min k len.

(** [s.slice(b, e)]. *)
Definition slice (s : string) (b e : Z) : string :=
  let len := Z.of_nat (String.length s) in
  let from := relIndex len b in
  let to := relIndex len e in
  take (Z.to_nat (to - from)) (drop (Z.to_nat from) s).

(** [s.slice(b)]: the end bound defaults to the length. *)
Definition sliceFrom (s : string) (b : Z) : string :=
  slice s b (Z.of_nat (String.length s)).

(** [s.indexOf(c)] for a one-character search string, counting from [i]. *)
Fixpoint indexOfFrom (s : string) (c : ascii) (i : Z) : Z :=
  match s with
  | EmptyString => -1
  | String a s' => if Ascii.eqb a c then i else indexOfFrom s' c (i + 1)
  end.

Definition indexOf (s : string) (c : ascii) : Z := indexOfFrom s c 0.

(** [xs.join(sep)]. *)
Fixpoint join (xs : list string) (sep : string) : string :=
  match xs with
  | [] => ""
  | [x] => x
  | x :: rest => x ++ sep ++ join rest sep
  end.

(** A property that may be missing ([undefined]) or [null] on the object
    parsed from JSON. *)
Inductive Optional (A : Type) : Type :=
| Undefined
| Null
| Present (a : A).
Arguments Undefined {A}.
Arguments Null {A}.
Arguments Present {A} a.

(** [v ?? d]. *)
Definition nullish {A : Type} (v : Optional A) (d : A) : A :=
  match v with
  | Present a => a
  | _ => d
  end.

End Js.

(* ================================================================== *)
(** ** src/task-parser.ts *)

(** Raw task object from [mise tasks ls --all --json].  Only [name] and
    [sources] are read by the parser; the other properties of the object
    (source, description, outputs, depends) are never looked at. *)
Record MiseTask : Type := mkMiseTask {
  name : string;
  raw_sources : Js.Optional (list string)
}.

(** Parsed task with monorepo project extracted. *)
Record ParsedTask : Type := mkParsedTask {
  project : string;
  task : string;
  localName : string;
  sources : list string
}.

(** A group of tasks belonging to the same project. *)
Record ProjectGroup : Type := mkProjectGroup {
  group_project : string;
  group_tasks : string
}.

Definition colon : ascii := ":"%char.

(** The callback of [raw.map] in [parseMiseTasks]. *)
Definition parseTask (t : MiseTask) : ParsedTask :=
  let name := name t in
  let '(project, localName) :=
    if Js.startsWith name "//" then
      let withoutPrefix := Js.sliceFrom name 2 in
      let colonIdx := Js.indexOf withoutPrefix colon in
      let '(project, localName) :=
        if colonIdx >=? 0
        then (Js.slice withoutPrefix 0 colonIdx,
              Js.sliceFrom withoutPrefix (colonIdx + 1))
        else (withoutPrefix, "") in
      (if String.eqb project "" then "." else project, localName)
    else (".", name) in
  {| project := project;
     task := name;
     localName := localName;
     sources := Js.nullish (raw_sources t) [] |}.

Definition parseMiseTasks (raw : list MiseTask) : list ParsedTask :=
  map parseTask raw.

(** [filterByPrefix]: the empty prefix hands the input back. *)
Definition filterByPrefix (tasks : list ParsedTask) (prefix : string)
  : list ParsedTask :=
  if String.eqb prefix "" then tasks
  else filter (fun t => Js.startsWith (localName t) prefix) tasks.

(** [Map<string, string[]>]: the entries in insertion order, which is the
    order the map is iterated in. *)
Definition TaskMap : Type := list (string * list string).

(** [map.get(k)]. *)
Fixpoint mapGet (m : TaskMap) (k : string) : option (list string) :=
  match m with
  | [] => None
  | (k', v) :: m' => if String.eqb k' k then Some v else mapGet m' k
  end.

(** [map.set(k, v)]: a key already present keeps its place. *)
Fixpoint mapSet (m : TaskMap) (k : string) (v : list string) : TaskMap :=
  match m with
  | [] => [(k, v)]
  | (k', v') :: m' =>
      if String.eqb k' k then (k', v) :: m' else (k', v') :: mapSet m' k v
  end.

(** [existing.push(x)] where [existing] is the array the map holds under
    [k]: the array is shared with the map, so the entry itself grows. *)
Fixpoint pushAt (m : TaskMap) (k : string) (x : string) : TaskMap :=
  match m with
  | [] => []
  | (k', v) :: m' =>
      if String.eqb k' k then (k', (v ++ [x])%list) :: m'
      else (k', v) :: pushAt m' k x
  end.

(** Body of the first loop of [groupByProject]. *)
Definition groupStep (m : TaskMap) (t : ParsedTask) : TaskMap :=
  match mapGet m (project t) with
  | Some _ => pushAt m (project t) (task t)
  | None => mapSet m (project t) [task t]
  end.

Definition separator : string := " ::: ".

(** Body of the second loop of [groupByProject]. *)
Definition emitGroup (result : list ProjectGroup)
  (entry : string * list string) : list ProjectGroup :=
  let '(project, taskList) := entry in
  (result ++ [ {| group_project := project;
                  group_tasks := Js.join taskList separator |} ])%list.

Definition groupByProject (tasks : list ParsedTask) : list ProjectGroup :=
  let map := fold_left groupStep tasks [] in
  fold_left emitGroup map [].

(* ================================================================== *)
(** ** src/change-detector.ts *)

(** What awaiting [exec.exec] gives: the promise resolves with the exit
    code of the process (the call passes [ignoreReturnCode: true]), or it
    rejects and the [await] throws. *)
Inductive ExecResult : Type :=
| Resolved (exitCode : Z)
| Rejected.

(** What the function does to the outside, in the order it does it. *)
Inductive Event : Type :=
| Info (msg : string)
| Warning (msg : string)
| Exec (cmd : string) (args : list string).

Section ChangeDetector.

(** The outside of the action: whatever decides how a spawned process
    ends.  It may answer differently from one call to the next. *)
Variable World : Type.
Variable spawn : World -> string -> list string -> ExecResult * World.

Record St : Type := mkSt {
  world : World;
  events : list Event
}.

(** Computations of the action: state passing over [St]. *)
Definition M (A : Type) : Type := St -> A * St.

Definition ret {A : Type} (a : A) : M A := fun st => (a, st).

Definition bind {A B : Type} (m : M A) (k : A -> M B) : M B :=
  fun st => let '(a, st') := m st in k a st'.

Notation "x <- m ;; k" := (bind m (fun x => k))
  (at level 61, m at next level, right associativity).
Notation "m ;; k" := (bind m (fun _ => k))
  (at level 61, right associativity).

Definition emit (e : Event) : M unit :=
  fun st => (tt, {| world := world st; events := (events st ++ [e])%list |}).

(** [core.info] and [core.warning]. *)
Definition info (msg : string) : M unit := emit (Info msg).
Definition warning (msg : string) : M unit := emit (Warning msg).

(** [await exec.exec(cmd, args, ...)]. *)
Definition exec (cmd : string) (args : list string) : M ExecResult :=
  fun st =>
    let '(r, w) := spawn (world st) cmd args in
    (r, {| world := w; events := (events st ++ [Exec cmd args])%list |}).

(** The callback of [task.sources.map]. *)
Definition pathspec (task : ParsedTask) (glob : string) : string :=
  if String.eqb (project task) "." then ":(glob)" ++ glob
  else ":(glob)" ++ project task ++ "/" ++ glob.

Definition pathspecs (task : ParsedTask) : list string :=
  map (pathspec task) (sources task).

Definition diffArgs (baseRef : string) (task : ParsedTask) : list string :=
  (["diff"; "--quiet"; baseRef; "HEAD"; "--"] ++ pathspecs task)%list.

(** Body of the [for] loop; [result] is the array being filled. *)
Definition visit (baseRef : string) (result : list ParsedTask)
  (t : ParsedTask) : M (list ParsedTask) :=
  if Nat.eqb (List.length (sources t)) 0 then
    info ("  " ++ task t ++ ": no sources, included") ;;
    ret (result ++ [t])%list
  else
    r <- exec "git" (diffArgs baseRef t) ;;
    match r with
    | Resolved exitCode =>
        if exitCode =? 0 then
          info ("  " ++ task t ++ ": unchanged, skipped") ;;
          ret result
        else
          info ("  " ++ task t ++ ": changed, included") ;;
          ret (result ++ [t])%list
    | Rejected =>
        warning ("  " ++ task t ++ ": git diff failed, included (fail-open)") ;;
        ret (result ++ [t])%list
    end.

Fixpoint forOf (baseRef : string) (tasks : list ParsedTask)
  (result : list ParsedTask) : M (list ParsedTask) :=
  match tasks with
  | [] => ret result
  | t :: rest => r <- visit baseRef result t ;; forOf baseRef rest r
  end.

Definition filterByChangedSources (tasks : list ParsedTask)
  (baseRef : string) : M (list ParsedTask) :=
  info ("Filtering tasks by changes since " ++ baseRef ++ "...") ;;
  forOf baseRef tasks [].

(** The calls to [exec.exec] found in a log, oldest first. *)
Fixpoint execCalls (evs : list Event) : list (string * list string) :=
  match evs with
  | [] => []
  | Exec cmd args :: evs' => (cmd, args) :: execCalls evs'
  | _ :: evs' => execCalls evs'
  end.

End ChangeDetector.

Arguments mkSt {World} world events.
Arguments world {World} s.
Arguments events {World} s.
Arguments ret {World A} a.
Arguments bind {World A B} m k.
Arguments emit {World} e.
Arguments info {World} msg.
Arguments warning {World} msg.
Arguments exec {World} spawn cmd args.
Arguments visit {World} spawn baseRef result t.
Arguments forOf {World} spawn baseRef tasks result.
Arguments filterByChangedSources {World} spawn tasks baseRef.

(** A scripted outside: each spawned process ends the way the next entry of
    the script says; past the end of the script it exits with code 1. *)
Definition scripted (w : list ExecResult) (cmd : string) (args : list string)
  : ExecResult * list ExecResult :=
  match w with
  | [] => (Resolved 1, [])
  | r :: w' => (r, w')
  end.

(* ================================================================== *)
(** ** Notions the properties are stated with *)

(** Whether [x] is among the strings of [l]. *)
Definition mem (x : string) (l : list string) : bool :=
  existsb (String.eqb x) l.

(** Keeps the first occurrence of every string, in order; [seen] holds the
    strings met so far. *)
Fixpoint firstSeenFrom (seen l : list string) : list string :=
  match l with
  | [] => []
  | x :: l' =>
      if mem x seen then firstSeenFrom seen l'
      else x :: firstSeenFrom (x :: seen) l'
  end.

Definition firstSeen (l : list string) : list string := firstSeenFrom [] l.

(** The tasks of project [p], in input order. *)
Definition tasksOf (p : string) (tasks : list ParsedTask) : list string :=
  map task (filter (fun t => String.eqb (project t) p) tasks).

(** Where [x] first stands in [l], counting from 0. *)
Fixpoint indexIn (x : string) (l : list string) : nat :=
  match l with
  | [] => O
  | a :: l' => if String.eqb x a then O else S (indexIn x l')
  end.

(** One group per project in order of first appearance, holding the
    project's tasks in input order, joined. *)
Definition expectedGroups (tasks : list ParsedTask) : list ProjectGroup :=
  map (fun p => {| group_project := p;
                   group_tasks := Js.join (tasksOf p tasks) separator |})
      (firstSeen (map project tasks)).

(** Whether [c] occurs in [s]. *)
Fixpoint occurs (c : ascii) (s : string) : bool :=
  match s with
  | EmptyString => false
  | String a s' => Ascii.eqb a c || occurs c s'
  end.

(** The path qualifier a name carries: what stands between the marker and
    the first colon (all that follows the marker when there is no colon);
    a name without the marker carries none. *)
Definition qualifierOf (name : string) : option string :=
  if Js.startsWith name "//" then
    let rest := Js.drop 2 name in
    let i := Js.indexOf rest colon in
    Some (if i >=? 0 then Js.take (Z.to_nat i) rest else rest)
  else None.

(** [s] begins with the qualifier syntax: the marker, then a colon
    somewhere after it. *)
Definition beginsWithQualifier (s : string) : bool :=
  Js.startsWith s "//" && occurs colon (Js.drop 2 s).

(** [s] holds the qualifier syntax at some position. *)
Fixpoint containsQualifier (s : string) : bool :=
  beginsWithQualifier s ||
  match s with
  | EmptyString => false
  | String _ s' => containsQualifier s'
  end.

(** The invariant of a normalized task as the data model words it. *)
Definition statedInvariant (t : MiseTask) : Prop :=
  (project (parseTask t) = "."
   <-> qualifierOf (name t) = None \/ qualifierOf (name t) = Some "")
  /\ containsQualifier (localName (parseTask t)) = false.

(** The pathspec as the change filter's description words it: the bare
    glob at the root, the glob under the project path elsewhere. *)
Definition statedPathspec (task : ParsedTask) (glob : string) : string :=
  if String.eqb (project task) "." then glob
  else project task ++ "/" ++ glob.

(** The split as the parsing rule words it before any normalization: the
    project is what precedes the first colon of the remainder. *)
Definition statedProject (name : string) : string :=
  let rest := Js.drop 2 name in
  Js.take (Z.to_nat (Js.indexOf rest colon)) rest.

(** [l1] is [l2] with some elements left out, the others in their order. *)
Inductive Subseq {A : Type} : list A -> list A -> Prop :=
| Subseq_nil : Subseq [] []
| Subseq_keep (x : A) (l1 l2 : list A) :
    Subseq l1 l2 -> Subseq (x :: l1) (x :: l2)
| Subseq_drop (x : A) (l1 l2 : list A) :
    Subseq l1 l2 -> Subseq l1 (x :: l2).

(** Whether a task has declared sources. *)
Definition sourced (t : ParsedTask) : bool :=
  negb (Nat.eqb (List.length (sources t)) 0).

(** Whether the way a diff query ended keeps the task: everything but exit
    code 0 does. *)
Definition kept (r : ExecResult) : bool :=
  match r with
  | Resolved code => negb (code =? 0)
  | Rejected => true
  end.

(** The messages of a log: what [core.info] and [core.warning] were given. *)
Fixpoint messages (evs : list Event) : list Event :=
  match evs with
  | [] => []
  | Exec _ _ :: evs' => messages evs'
  | e :: evs' => e :: messages evs'
  end.

(** The warnings of a log. *)
Fixpoint warnings (evs : list Event) : list string :=
  match evs with
  | [] => []
  | Warning msg :: evs' => msg :: warnings evs'
  | _ :: evs' => warnings evs'
  end.

(* ================================================================== *)
(** ** src/main.ts *)

(** What a [catch] clause receives: an [Error] with its message, or a value
    of another kind. *)
Inductive Thrown : Type :=
| ErrorObject (message : string)
| OtherValue.

(** How a call ends. *)
Inductive Completion (A : Type) : Type :=
| Returned (a : A)
| Threw (e : Thrown).
Arguments Returned {A} a.
Arguments Threw {A} e.

(** How [exec.exec] ends for its caller when it is given a stdout
    listener: the process ran, exited with a code and wrote [stdout], or the
    promise was rejected with [e]. *)
Inductive ProcessEnd : Type :=
| Exited (exitCode : Z) (stdout : string)
| NotSpawned (e : Thrown).

(** What the action does to the outside: the events of the change detector
    and the calls to [core.setOutput] and [core.setFailed]. *)
Inductive Effect : Type :=
| Logged (e : Event)
| SetOutput (name value : string)
| SetFailed (message : string).

(** [`${n}`] for an array length. *)
Definition showNat (n : nat) : string :=
  NilEmpty.string_of_uint (Nat.to_uint n).

Module Main.

Section Action.

(** The outside of the action: the processes it spawns, the inputs of the
    workflow step, and the JSON built-ins, which are taken as they are.
    [jsonParse] answers [None] when [JSON.parse] throws; what it parses is
    taken to be an array of tasks, as the cast in the source says. *)
Variable World : Type.
Variable process : World -> string -> list string -> ProcessEnd * World.
Variable getInput : string -> Completion string.
Variable jsonParse : string -> option (list MiseTask).
Variable jsonStringify : list ProjectGroup -> string.

Record Run : Type := mkRun {
  outside : World;
  effects : list Effect
}.

(** Computations that may throw: state passing over [Run]; the state
    reached when something is thrown is kept. *)
Definition Act (A : Type) : Type := Run -> Completion A * Run.

Definition ret {A : Type} (a : A) : Act A := fun s => (Returned a, s).

Definition bind {A B : Type} (m : Act A) (k : A -> Act B) : Act B :=
  fun s =>
    match m s with
    | (Returned a, s') => k a s'
    | (Threw e, s') => (Threw e, s')
    end.

Notation "x <- m ;; k" := (bind m (fun x => k))
  (at level 61, m at next level, right associativity).
Notation "m ;; k" := (bind m (fun _ => k))
  (at level 61, right associativity).

(** [try { m } catch (e) { h e }]. *)
Definition tryCatch {A : Type} (m : Act A) (h : Thrown -> Act A) : Act A :=
  fun s =>
    match m s with
    | (Returned a, s') => (Returned a, s')
    | (Threw e, s') => h e s'
    end.

Definition perform (e : Effect) : Act unit :=
  fun s => (Returned tt,
            {| outside := outside s; effects := (effects s ++ [e])%list |}).

Definition coreInfo (msg : string) : Act unit := perform (Logged (Info msg)).
Definition coreWarning (msg : string) : Act unit :=
  perform (Logged (Warning msg)).
Definition setOutput (name value : string) : Act unit :=
  perform (SetOutput name value).
Definition setFailed (message : string) : Act unit :=
  perform (SetFailed message).

(** [core.getInput(name)]. *)
Definition coreGetInput (name : string) : Act string :=
  fun s => (getInput name, s).

(** [await exec.exec(cmd, args, { listeners: { stdout } })], giving the
    exit code and what the listener gathered. *)
Definition execCapture (cmd : string) (args : list string)
  : Act (Z * string) :=
  fun s =>
    let '(r, w) := process (outside s) cmd args in
    let s' := {| outside := w;
                 effects := (effects s ++ [Logged (Exec cmd args)])%list |} in
    match r with
    | Exited code out => (Returned (code, out), s')
    | NotSpawned e => (Threw e, s')
    end.

(** [exec.exec] as the change detector sees it: no listener, so only the
    exit code or the rejection. *)
Definition spawn (w : World) (cmd : string) (args : list string)
  : ExecResult * World :=
  let '(r, w') := process w cmd args in
  match r with
  | Exited code _ => (Resolved code, w')
  | NotSpawned _ => (Rejected, w')
  end.

(** A computation of the change detector, run on the same outside; it
    cannot throw, and what it logs goes to the same log. *)
Definition changeDetector {A : Type} (m : M World A) : Act A :=
  fun s =>
    let '(a, st) := m (mkSt (outside s) []) in
    (Returned a,
     {| outside := world st;
        effects := (effects s ++ map Logged (events st))%list |}).

Definition execMiseTasksLs : Act (list MiseTask) :=
  r <- execCapture "mise" ["tasks"; "ls"; "--all"; "--json"] ;;
  let '(exitCode, stdout) := r in
  if negb (exitCode =? 0) then
    coreWarning "mise tasks ls failed, returning empty task list" ;;
    ret []
  else
    match jsonParse stdout with
    | Some tasks => ret tasks
    | None =>
        coreWarning "Failed to parse mise tasks ls output as JSON" ;;
        ret []
    end.

(** The loop [for (const p of projects) core.info(...)]. *)
Fixpoint logProjects (projects : list ProjectGroup) : Act unit :=
  match projects with
  | [] => ret tt
  | p :: rest =>
      coreInfo ("  " ++ group_project p ++ ": " ++ group_tasks p) ;;
      logProjects rest
  end.

(** The [try] block of [run]. *)
Definition discover : Act unit :=
  prefix <- coreGetInput "task-prefix" ;;
  baseRef <- coreGetInput "base-ref" ;;
  raw <- execMiseTasksLs ;;
  let parsed := parseMiseTasks raw in
  let matched := filterByPrefix parsed prefix in
  filtered <- (if String.eqb baseRef "" then ret matched
               else changeDetector
                      (filterByChangedSources spawn matched baseRef)) ;;
  let projects := groupByProject filtered in
  setOutput "projects" (jsonStringify projects) ;;
  let count := List.length projects in
  coreInfo ("Discovered " ++ showNat count ++ " project(s) matching '"
            ++ prefix ++ "*':") ;;
  logProjects projects.

Definition run : Act unit :=
  tryCatch discover
    (fun error =>
       match error with
       | ErrorObject message => setFailed message
       | OtherValue => setFailed "An unexpected error occurred"
       end).

(** The processes spawned, oldest first. *)
Fixpoint spawned (effs : list Effect) : list (string * list string) :=
  match effs with
  | [] => []
  | Logged (Exec cmd args) :: effs' => (cmd, args) :: spawned effs'
  | _ :: effs' => spawned effs'
  end.

(** The values given to [core.setOutput], oldest first. *)
Fixpoint outputs (effs : list Effect) : list (string * string) :=
  match effs with
  | [] => []
  | SetOutput name value :: effs' => (name, value) :: outputs effs'
  | _ :: effs' => outputs effs'
  end.

(** The messages given to [core.setFailed], oldest first. *)
Fixpoint failures (effs : list Effect) : list string :=
  match effs with
  | [] => []
  | SetFailed message :: effs' => message :: failures effs'
  | _ :: effs' => failures effs'
  end.

End Action.

Arguments mkRun {World} outside effects.
Arguments outside {World} r.
Arguments effects {World} r.

End Main.

(** A scripted outside for the action: each spawned process ends the way
    the next entry of the script says; past the end of the script the
    process cannot be spawned. *)
Definition scriptedProcess (w : list ProcessEnd) (cmd : string)
  (args : list string) : ProcessEnd * list ProcessEnd :=
  match w with
  | [] => (NotSpawned (ErrorObject "spawn failed"), [])
  | r :: w' => (r, w')
  end.

(** Inputs of a workflow step that sets the two inputs of the action;
    [core.getInput] answers the empty string for any other name. *)
Definition inputs (prefix baseRef : string) (name : string)
  : Completion string :=
  if String.eqb name "task-prefix" then Returned prefix
  else if String.eqb name "base-ref" then Returned baseRef
  else Returned "".

(** A stand-in for [JSON.parse] that knows one document, [listing], and
    what it parses to; on anything else it throws. *)
Definition parseListing (listing : string) (tasks : list MiseTask)
  (s : string) : option (list MiseTask) :=
  if String.eqb s listing then Some tasks else None.

(** A stand-in for [JSON.stringify] on groups, good enough to tell two
    outputs apart. *)
Definition showGroups (groups : list ProjectGroup) : string :=
  Js.join (map (fun g => group_project g ++ " = " ++ group_tasks g) groups)
    "; ".

(* ================================================================== *)
(** ** Facts about the string built-ins *)

Section StringFacts.

Local Open Scope nat_scope.

Lemma startsWith_append (p r : string) : Js.startsWith (p ++ r) p = true.
Proof.
  induction p as [|a p IH]; simpl; [reflexivity|].
  now rewrite Ascii.eqb_refl, IH.
Qed.

(** [startsWith] is the literal prefix relation on strings. *)
Lemma startsWith_literal (s p : string) :
  Js.startsWith s p = true <-> exists r, s = p ++ r.
Proof.
  split.
  - revert s; induction p as [|a p IH]; intros s H.
    + now exists s.
    + destruct s as [|b s]; simpl in H; [discriminate|].
      apply andb_true_iff in H as [Hab Hs].
      apply Ascii.eqb_eq in Hab; subst b.
      destruct (IH _ Hs) as [r ->]. now exists r.
  - intros [r ->]. apply startsWith_append.
Qed.

Lemma take_length (s : string) : Js.take (String.length s) s = s.
Proof. induction s as [|a s IH]; simpl; [reflexivity|now rewrite IH]. Qed.

Lemma take_beyond (n : nat) (s : string) :
  String.length s <= n -> Js.take n s = s.
Proof.
  revert n; induction s as [|a s IH]; intros [|n] H; simpl in *;
    try reflexivity; try lia.
  now rewrite IH by lia.
Qed.

Lemma drop_beyond (n : nat) (s : string) :
  String.length s <= n -> Js.drop n s = "".
Proof.
  revert n; induction s as [|a s IH]; intros [|n] H; simpl in *;
    try reflexivity; try lia.
  apply IH; lia.
Qed.

Lemma length_drop (n : nat) (s : string) :
  String.length (Js.drop n s) = String.length s - n.
Proof.
  revert n; induction s as [|a s IH]; intros [|n]; simpl; try reflexivity.
  apply IH.
Qed.

Lemma drop_drop (n m : nat) (s : string) :
  Js.drop n (Js.drop m s) = Js.drop (m + n) s.
Proof.
  revert s; induction m as [|m IH]; intros s; simpl.
  - reflexivity.
  - destruct s as [|a s]; [|apply IH].
    now destruct n.
Qed.

Lemma take_append (p r : string) : Js.take (String.length p) (p ++ r) = p.
Proof. induction p as [|a p IH]; simpl; [now destruct r|now rewrite IH]. Qed.

Lemma drop_append (p r : string) : Js.drop (String.length p) (p ++ r) = r.
Proof. induction p as [|a p IH]; simpl; [reflexivity|exact IH]. Qed.

(** [s.slice(b)] with a bound that is not negative drops [b] characters. *)
Lemma sliceFrom_drop (s : string) (b : Z) :
  (0 <= b)%Z -> Js.sliceFrom s b = Js.drop (Z.to_nat b) s.
Proof.
  intros Hb. unfold Js.sliceFrom, Js.slice, Js.relIndex.
  destruct (Z.ltb_spec b 0) as [?|_]; [lia|].
  destruct (Z.ltb_spec (Z.of_nat (String.length s)) 0) as [?|_]; [lia|].
  rewrite Z.min_id.
  destruct (Z.le_gt_cases b (Z.of_nat (String.length s))) as [Hle|Hgt].
  - rewrite Z.min_l by assumption.
    apply take_beyond. rewrite length_drop. lia.
  - rewrite Z.min_r by lia.
    rewrite Nat2Z.id, !drop_beyond by lia.
    now destruct (Z.to_nat _).
Qed.

(** [s.slice(0, e)] with a bound that is not negative keeps [e] characters. *)
Lemma slice_take (s : string) (e : Z) :
  (0 <= e)%Z -> Js.slice s 0 e = Js.take (Z.to_nat e) s.
Proof.
  intros He. unfold Js.slice, Js.relIndex.
  destruct (Z.ltb_spec e 0) as [?|_]; [lia|].
  change (0 <? 0)%Z with false; cbv iota.
  rewrite (Z.min_l 0) by lia. simpl Js.drop. rewrite Z.sub_0_r.
  destruct (Z.le_gt_cases e (Z.of_nat (String.length s))) as [Hle|Hgt].
  - now rewrite Z.min_l by assumption.
  - rewrite Z.min_r by lia.
    rewrite Nat2Z.id, take_length. symmetry. apply take_beyond. lia.
Qed.

Lemma indexOfFrom_shift (s : string) (c : ascii) (i : Z) :
  Js.indexOfFrom s c i
  = (if Js.indexOf s c <? 0 then -1 else i + Js.indexOf s c)%Z.
Proof.
  unfold Js.indexOf. revert i; induction s as [|a s IH]; intros i; simpl.
  - reflexivity.
  - destruct (Ascii.eqb a c).
    + simpl. now rewrite Z.add_0_r.
    + rewrite (IH (i + 1)%Z), (IH 1%Z).
      destruct (Z.ltb_spec (Js.indexOfFrom s c 0) 0) as [Hlt|Hge];
        [reflexivity|].
      destruct (Z.ltb_spec (1 + Js.indexOfFrom s c 0) 0); lia.
Qed.

Lemma indexOf_cons (a : ascii) (s : string) (c : ascii) :
  Js.indexOf (String a s) c
  = (if Ascii.eqb a c then 0
     else if Js.indexOf s c <? 0 then -1 else 1 + Js.indexOf s c)%Z.
Proof.
  unfold Js.indexOf at 1. simpl.
  destruct (Ascii.eqb a c); [reflexivity|].
  apply indexOfFrom_shift.
Qed.

(** A miss is answered with [-1], and only a miss. *)
Lemma indexOf_range (s : string) (c : ascii) :
  (Js.indexOf s c = (-1)%Z /\ occurs c s = false)
  \/ ((0 <= Js.indexOf s c < Z.of_nat (String.length s))%Z
      /\ occurs c s = true).
Proof.
  induction s as [|a s IH].
  - left. split; reflexivity.
  - rewrite indexOf_cons. simpl occurs.
    change (String.length (String a s)) with (S (String.length s)).
    rewrite Nat2Z.inj_succ.
    destruct (Ascii.eqb a c); cbn [orb].
    + right. split; [lia|reflexivity].
    + destruct IH as [[H1 H2]|[H1 H2]].
      * rewrite H1. now left.
      * destruct (Z.ltb_spec (Js.indexOf s c) 0); [lia|].
        right. split; [lia|assumption].
Qed.

(** The index of the first [c] of [p ++ c :: r] when [p] has none. *)
Lemma indexOf_first (p r : string) (c : ascii) :
  occurs c p = false ->
  Js.indexOf (p ++ String c r) c = Z.of_nat (String.length p).
Proof.
  induction p as [|a p IH]; intros H.
  - cbn [append]. rewrite indexOf_cons. now rewrite Ascii.eqb_refl.
  - simpl in H. apply orb_false_iff in H as [Ha Hp].
    change ((String a p ++ String c r)%string)
      with (String a (p ++ String c r)).
    rewrite indexOf_cons, Ha, (IH Hp).
    destruct (Z.ltb_spec (Z.of_nat (String.length p)) 0); [lia|].
    change (String.length (String a p)) with (S (String.length p)). lia.
Qed.

(** A string in which [c] occurs splits at the index [indexOf] answers. *)
Lemma indexOf_split (s : string) (c : ascii) :
  occurs c s = true ->
  let n := Z.to_nat (Js.indexOf s c) in
  s = (Js.take n s ++ String c (Js.drop (S n) s))%string
  /\ occurs c (Js.take n s) = false.
Proof.
  induction s as [|a s IH]; intros H; [discriminate|].
  rewrite indexOf_cons. simpl in H.
  destruct (Ascii.eqb a c) eqn:Hac.
  - apply Ascii.eqb_eq in Hac; subst a. simpl. now split.
  - simpl in H. specialize (IH H). cbv zeta in IH.
    destruct (indexOf_range s c) as [[_ Hn]|[Hr _]]; [congruence|].
    destruct (Z.ltb_spec (Js.indexOf s c) 0); [lia|].
    cbv zeta.
    replace (Z.to_nat (1 + Js.indexOf s c))
      with (S (Z.to_nat (Js.indexOf s c))) by lia.
    destruct IH as [IH1 IH2].
    split.
    + simpl. f_equal. exact IH1.
    + simpl. now rewrite Hac, IH2.
Qed.

End StringFacts.

(* ================================================================== *)
(** ** The task normalizer *)

Section Normalizer.

Local Open Scope nat_scope.

(** What [parseTask] computes, with the slices read as [take] and [drop]. *)
Lemma parseTask_unfold (t : MiseTask) :
  parseTask t =
  {| project := match qualifierOf (name t) with
                | Some q => if String.eqb q "" then "." else q
                | None => "."
                end;
     task := name t;
     localName :=
       if Js.startsWith (name t) "//" then
         let rest := Js.drop 2 (name t) in
         let i := Js.indexOf rest colon in
         if (i >=? 0)%Z then Js.drop (S (Z.to_nat i)) rest else ""
       else name t;
     sources := Js.nullish (raw_sources t) [] |}.
Proof.
  unfold parseTask, qualifierOf.
  destruct (Js.startsWith (name t) "//"); [|reflexivity].
  rewrite sliceFrom_drop by lia.
  change (Z.to_nat 2) with 2.
  cbv zeta.
  destruct (Z.geb_spec (Js.indexOf (Js.drop 2 (name t)) colon) 0) as [Hi|Hi].
  - rewrite slice_take, sliceFrom_drop by lia.
    now replace (Z.to_nat (Js.indexOf (Js.drop 2 (name t)) colon + 1))
      with (S (Z.to_nat (Js.indexOf (Js.drop 2 (name t)) colon))) by lia.
  - reflexivity.
Qed.

Lemma drop_past_colon (p l : string) :
  Js.drop (S (String.length p)) (p ++ String colon l) = l.
Proof. induction p as [|a p IH]; simpl; [reflexivity|exact IH]. Qed.

(** A qualified name [//p:l], [p] free of colons, is cut at that colon. *)
Lemma parseTask_qualified (p l : string) (src : Js.Optional (list string)) :
  occurs colon p = false ->
  parseTask (mkMiseTask ("//" ++ p ++ String colon l) src)
  = {| project := if String.eqb p "" then "." else p;
       task := "//" ++ p ++ String colon l;
       localName := l;
       sources := Js.nullish src [] |}.
Proof.
  intros Hp. rewrite parseTask_unfold. unfold qualifierOf.
  cbn [name raw_sources].
  change (Js.startsWith ("//" ++ p ++ String colon l) "//") with true.
  change (Js.drop 2 ("//" ++ p ++ String colon l)) with (p ++ String colon l).
  cbv iota zeta.
  rewrite (indexOf_first p l colon Hp).
  destruct (Z.geb_spec (Z.of_nat (String.length p)) 0) as [_|?]; [|lia].
  now rewrite Nat2Z.id, take_append, drop_past_colon.
Qed.

(** A name that begins with the marker and has a colon after it is of the
    form [//p:l] with [p] free of colons. *)
Lemma qualified_form (n : string) :
  Js.startsWith n "//" = true ->
  occurs colon (Js.drop 2 n) = true ->
  exists p l, n = "//" ++ p ++ String colon l /\ occurs colon p = false.
Proof.
  intros Hm Hc.
  apply startsWith_literal in Hm as [r ->].
  change (Js.drop 2 ("//" ++ r)) with r in Hc.
  destruct (indexOf_split r colon Hc) as [Hr Hp].
  exists (Js.take (Z.to_nat (Js.indexOf r colon)) r),
         (Js.drop (S (Z.to_nat (Js.indexOf r colon))) r).
  split; [|exact Hp]. now rewrite <- Hr.
Qed.

Lemma containsQualifier_tail (a : ascii) (s : string) :
  containsQualifier (String a s) = false -> containsQualifier s = false.
Proof.
  intros H. change (containsQualifier (String a s))
    with (beginsWithQualifier (String a s) || containsQualifier s)%bool in H.
  now apply orb_false_iff in H.
Qed.

Lemma containsQualifier_drop (n : nat) (s : string) :
  containsQualifier s = false -> containsQualifier (Js.drop n s) = false.
Proof.
  revert s; induction n as [|n IH]; intros s H.
  - now destruct s.
  - destruct s as [|a s]; [exact H|].
    simpl. apply IH. eapply containsQualifier_tail; eauto.
Qed.

End Normalizer.

(** C1 (as amended): a name that begins with the marker and has a colon in
    what follows is cut at the first colon only.  The local name is all that
    follows that colon, the task field is the name unchanged, the sources
    are those of the raw record, and the project is what precedes the colon,
    but for an empty segment, which becomes ".". *)
Theorem parseMiseTasks_first_colon_split (t : MiseTask) :
  Js.startsWith (name t) "//" = true ->
  occurs colon (Js.drop 2 (name t)) = true ->
  exists p l,
    name t = "//" ++ p ++ String colon l
    /\ occurs colon p = false
    /\ project (parseTask t) = (if String.eqb p "" then "." else p)
    /\ localName (parseTask t) = l
    /\ task (parseTask t) = name t
    /\ (forall srcs, raw_sources t = Js.Present srcs ->
                     sources (parseTask t) = srcs).
Proof.
  intros Hm Hc.
  destruct (qualified_form _ Hm Hc) as (p & l & Hn & Hp).
  exists p, l. destruct t as [n src]. cbn [name raw_sources] in *. subst n.
  rewrite (parseTask_qualified p l src Hp). cbn.
  repeat split; try reflexivity; try assumption.
  now intros srcs ->.
Qed.

Lemma parseMiseTasks_first_colon_split_witness :
  exists p l,
    "//services/api:ci:build" = "//" ++ p ++ String colon l
    /\ occurs colon p = false
    /\ project (parseTask (mkMiseTask "//services/api:ci:build"
                             (Js.Present ["src/**"])))
       = (if String.eqb p "" then "." else p)
    /\ localName (parseTask (mkMiseTask "//services/api:ci:build"
                               (Js.Present ["src/**"]))) = l
    /\ task (parseTask (mkMiseTask "//services/api:ci:build"
                          (Js.Present ["src/**"])))
       = "//services/api:ci:build"
    /\ (forall srcs, Js.Present ["src/**"] = Js.Present srcs ->
                     sources (parseTask (mkMiseTask "//services/api:ci:build"
                                           (Js.Present ["src/**"]))) = srcs).
Proof.
  apply (parseMiseTasks_first_colon_split
           (mkMiseTask "//services/api:ci:build" (Js.Present ["src/**"])));
    reflexivity.
Defined.

(** C1, the claim as worded: with an empty segment before the first colon
    the project is not that segment. *)
Lemma project_is_not_always_the_segment :
  let t := mkMiseTask "//:ci:build" (Js.Present ["src/**"]) in
  Js.startsWith (name t) "//" = true
  /\ occurs colon (Js.drop 2 (name t)) = true
  /\ statedProject (name t) = ""
  /\ project (parseTask t) = "."
  /\ project (parseTask t) <> statedProject (name t).
Proof. cbv zeta. repeat split; try reflexivity. discriminate. Qed.

(** The example of the monorepo split. *)
Example parse_monorepo :
  parseMiseTasks [mkMiseTask "//services/api:ci:build" (Js.Present ["src/**"])]
  = [mkParsedTask "services/api" "//services/api:ci:build" "ci:build"
       ["src/**"]].
Proof. reflexivity. Qed.

(** C8: a name of the form [//:task] is given project "." (and the text
    after that colon as its local name); a name without the marker is given
    project "." and keeps the whole name as its local name. *)
Theorem parseMiseTasks_root_forms :
  (forall (t : MiseTask) (rest : string),
      name t = "//:" ++ rest ->
      project (parseTask t) = "." /\ localName (parseTask t) = rest)
  /\ (forall t : MiseTask,
         Js.startsWith (name t) "//" = false ->
         project (parseTask t) = "." /\ localName (parseTask t) = name t).
Proof.
  split.
  - intros [n src] rest Hn. cbn [name] in Hn. subst n.
    change ("//:" ++ rest) with ("//" ++ "" ++ String colon rest).
    now rewrite parseTask_qualified.
  - intros t Hm. rewrite parseTask_unfold. unfold qualifierOf.
    rewrite Hm. now split.
Qed.

Lemma parseMiseTasks_root_forms_witness :
  (project (parseTask (mkMiseTask "//:ci:build" Js.Undefined)) = "."
   /\ localName (parseTask (mkMiseTask "//:ci:build" Js.Undefined))
      = "ci:build")
  /\ (project (parseTask (mkMiseTask "ci:build" Js.Undefined)) = "."
      /\ localName (parseTask (mkMiseTask "ci:build" Js.Undefined))
         = "ci:build").
Proof.
  split.
  - apply (proj1 parseMiseTasks_root_forms
             (mkMiseTask "//:ci:build" Js.Undefined) "ci:build").
    reflexivity.
  - apply (proj2 parseMiseTasks_root_forms
             (mkMiseTask "ci:build" Js.Undefined)).
    reflexivity.
Defined.

(** C10: the name "//" alone is given project "." and the empty local name,
    and no parsed task at all has the empty string as its project. *)
Theorem parseMiseTasks_project_never_empty :
  (forall src, project (parseTask (mkMiseTask "//" src)) = "."
               /\ localName (parseTask (mkMiseTask "//" src)) = "")
  /\ (forall t : MiseTask, project (parseTask t) <> "").
Proof.
  split.
  - intros src. now split.
  - intros t. rewrite parseTask_unfold. cbn [project].
    destruct (qualifierOf (name t)) as [q|]; [|discriminate].
    destruct (String.eqb_spec q ""); [discriminate|assumption].
Qed.

(** C9: parsing gives one task per raw record, in the same order and for
    every list, and a record whose sources are missing or null gets the
    empty list of sources. *)
Theorem parseMiseTasks_total_order_preserving (raw : list MiseTask) :
  List.length (parseMiseTasks raw) = List.length raw
  /\ (forall i : nat,
         nth_error (parseMiseTasks raw) i
         = option_map parseTask (nth_error raw i))
  /\ map task (parseMiseTasks raw) = map name raw
  /\ (forall t : MiseTask,
         raw_sources t = Js.Undefined \/ raw_sources t = Js.Null ->
         sources (parseTask t) = [])
  /\ parseMiseTasks [] = [].
Proof.
  unfold parseMiseTasks. repeat split.
  - apply length_map.
  - intros i. apply nth_error_map.
  - rewrite map_map. apply map_ext. intros t. now rewrite parseTask_unfold.
  - intros t [H|H]; rewrite parseTask_unfold; cbn [sources]; now rewrite H.
Qed.

Lemma parseMiseTasks_total_order_preserving_witness :
  sources (parseTask (mkMiseTask "ci:build" Js.Null)) = [].
Proof.
  apply (proj1 (proj2 (proj2 (proj2
           (parseMiseTasks_total_order_preserving [])))));
    right; reflexivity.
Defined.

(** C4 (as amended): the project is "." exactly when the name carries no
    qualifier, an empty one, or the qualifier "." itself; and the local name
    holds the qualifier syntax only when the name holds it somewhere past
    its first character. *)
Theorem parseMiseTasks_invariant (t : MiseTask) :
  (project (parseTask t) = "."
   <-> qualifierOf (name t) = None
       \/ qualifierOf (name t) = Some ""
       \/ qualifierOf (name t) = Some ".")
  /\ (containsQualifier (Js.drop 1 (name t)) = false ->
      containsQualifier (localName (parseTask t)) = false).
Proof.
  rewrite parseTask_unfold. cbn [project localName]. split.
  - destruct (qualifierOf (name t)) as [q|].
    + destruct (String.eqb_spec q "") as [->|Hq].
      * split; auto.
      * split.
        -- intros ->. auto.
        -- intros [H|[H|H]]; try discriminate; injection H as H; congruence.
    + split; auto.
  - intros H. destruct (Js.startsWith (name t) "//") eqn:Hm.
    + cbv zeta.
      destruct (Js.indexOf (Js.drop 2 (name t)) colon >=? 0); [|reflexivity].
      replace (Js.drop (S (Z.to_nat (Js.indexOf (Js.drop 2 (name t)) colon)))
                 (Js.drop 2 (name t)))
        with (Js.drop (S (S (Z.to_nat (Js.indexOf (Js.drop 2 (name t)) colon))))
                (Js.drop 1 (name t))).
      * now apply containsQualifier_drop.
      * now rewrite !drop_drop.
    + destruct (name t) as [|a n] eqn:Hn; [reflexivity|].
      change (Js.drop 1 (String a n)) with n in H.
      change (containsQualifier (String a n))
        with (beginsWithQualifier (String a n) || containsQualifier n)%bool.
      unfold beginsWithQualifier. now rewrite Hm, H.
Qed.

Lemma parseMiseTasks_invariant_witness :
  (project (parseTask (mkMiseTask "//services/api:ci:build" Js.Undefined)) = "."
   <-> qualifierOf "//services/api:ci:build" = None
       \/ qualifierOf "//services/api:ci:build" = Some ""
       \/ qualifierOf "//services/api:ci:build" = Some ".")
  /\ containsQualifier
       (localName (parseTask (mkMiseTask "//services/api:ci:build"
                                Js.Undefined))) = false.
Proof.
  split.
  - apply (parseMiseTasks_invariant
             (mkMiseTask "//services/api:ci:build" Js.Undefined)).
  - apply (parseMiseTasks_invariant
             (mkMiseTask "//services/api:ci:build" Js.Undefined)).
    reflexivity.
Defined.

(** C4, the invariant as worded: it fails for the qualifier ".", which is
    not empty yet gives project ".", and for a name with a second qualifier
    after its first colon, which stays in the local name. *)
Lemma stated_invariant_fails :
  let t1 := mkMiseTask "//.:ci:build" Js.Undefined in
  let t2 := mkMiseTask "//a://b:c" Js.Undefined in
  (project (parseTask t1) = "." /\ qualifierOf (name t1) = Some ".")
  /\ (localName (parseTask t2) = "//b:c"
      /\ containsQualifier (localName (parseTask t2)) = true)
  /\ ~ statedInvariant t1
  /\ ~ statedInvariant t2.
Proof.
  cbv zeta. repeat split.
  - intros [[H _] _]. destruct (H eq_refl) as [E|E]; discriminate E.
  - intros [_ H]. discriminate H.
Qed.

(* ================================================================== *)
(** ** The prefix filter *)

(** C6: with the empty prefix the input comes back as it is; with any other
    prefix the result is the input filtered, order kept, by whether the
    local name begins with the prefix character for character. *)
Theorem filterByPrefix_identity_and_literal (tasks : list ParsedTask) :
  filterByPrefix tasks "" = tasks
  /\ (forall prefix : string,
         prefix <> "" ->
         filterByPrefix tasks prefix
         = filter (fun t => Js.startsWith (localName t) prefix) tasks
         /\ (forall t : ParsedTask,
                In t (filterByPrefix tasks prefix)
                <-> In t tasks /\ exists r, localName t = prefix ++ r)).
Proof.
  split; [reflexivity|].
  intros prefix Hne. unfold filterByPrefix.
  destruct (String.eqb_spec prefix "") as [?|_]; [contradiction|].
  split; [reflexivity|].
  intros t. rewrite filter_In, startsWith_literal. reflexivity.
Qed.

Lemma filterByPrefix_identity_and_literal_witness :
  let tasks := [mkParsedTask "." "ci:build" "ci:build" ["src/**"];
                mkParsedTask "." "ci:test" "ci:test" [];
                mkParsedTask "." "CI:build" "CI:build" [];
                mkParsedTask "." "ci:build:docker" "ci:build:docker" []] in
  filterByPrefix tasks "ci:build"
  = [mkParsedTask "." "ci:build" "ci:build" ["src/**"];
     mkParsedTask "." "ci:build:docker" "ci:build:docker" []].
Proof.
  cbv zeta.
  rewrite (proj1 (proj2 (filterByPrefix_identity_and_literal _) "ci:build"
                    ltac:(discriminate))).
  reflexivity.
Defined.

(* ================================================================== *)
(** ** The project grouper *)

Section Grouper.

Local Open Scope list_scope.

Lemma mem_In (x : string) (l : list string) : mem x l = true <-> In x l.
Proof.
  unfold mem. rewrite existsb_exists. split.
  - intros (y & Hy & E). apply String.eqb_eq in E. now subst.
  - intros H. exists x. split; [assumption|apply String.eqb_refl].
Qed.

Lemma mem_app (x : string) (l1 l2 : list string) :
  mem x (l1 ++ l2) = mem x l1 || mem x l2.
Proof. apply existsb_app. Qed.

Lemma mem_cons (x a : string) (l : list string) :
  mem x (a :: l) = (x =? a)%string || mem x l.
Proof. reflexivity. Qed.

Lemma firstSeenFrom_snoc (seen l : list string) (x : string) :
  firstSeenFrom seen (l ++ [x])
  = firstSeenFrom seen l ++ (if mem x seen || mem x l then [] else [x]).
Proof.
  revert seen; induction l as [|a l IH]; intros seen; cbn [app firstSeenFrom].
  - change (mem x []) with false. rewrite orb_false_r.
    now destruct (mem x seen).
  - rewrite !IH, !mem_cons. destruct (mem a seen) eqn:Ha.
    + f_equal.
      destruct (String.eqb_spec x a) as [->|_]; [|reflexivity].
      now rewrite Ha.
    + cbn [app]. f_equal. f_equal.
      destruct (x =? a)%string, (mem x seen), (mem x l); reflexivity.
Qed.

Lemma firstSeen_snoc (l : list string) (x : string) :
  firstSeen (l ++ [x]) = firstSeen l ++ (if mem x l then [] else [x]).
Proof. apply (firstSeenFrom_snoc [] l x). Qed.

(** A string is kept by [firstSeenFrom] iff it is in the list and new. *)
Lemma firstSeenFrom_In (seen l : list string) (x : string) :
  In x (firstSeenFrom seen l) <-> In x l /\ mem x seen = false.
Proof.
  revert seen; induction l as [|a l IH]; intros seen; cbn [firstSeenFrom In].
  - tauto.
  - destruct (mem a seen) eqn:Ha.
    + rewrite IH. split; [tauto|].
      intros [[E|H] Hx]; [subst; congruence|tauto].
    + cbn [In]. rewrite IH, mem_cons.
      destruct (String.eqb_spec x a) as [E|Hxa]; cbn [orb].
      * subst. split; [intros _; tauto|tauto].
      * split; [intros [E|H]; [congruence|tauto]|].
        intros [[E|H] Hx]; [congruence|tauto].
Qed.

Lemma firstSeenFrom_NoDup (seen l : list string) :
  NoDup (firstSeenFrom seen l).
Proof.
  revert seen; induction l as [|a l IH]; intros seen; cbn [firstSeenFrom].
  - constructor.
  - destruct (mem a seen); [apply IH|].
    constructor; [|apply IH].
    rewrite firstSeenFrom_In, mem_cons, String.eqb_refl.
    intros [_ H]. discriminate.
Qed.

Lemma firstSeen_In (l : list string) (x : string) :
  In x (firstSeen l) <-> In x l.
Proof.
  unfold firstSeen. rewrite firstSeenFrom_In.
  change (mem x []) with false. tauto.
Qed.

Lemma mem_firstSeen (l : list string) (x : string) :
  mem x (firstSeen l) = mem x l.
Proof.
  apply eq_true_iff_eq. rewrite !mem_In. apply firstSeen_In.
Qed.

(** The order [firstSeenFrom] gives is the order of first occurrences. *)
Lemma firstSeenFrom_order (seen l : list string) (i j : nat) (p q : string) :
  (i < j)%nat ->
  nth_error (firstSeenFrom seen l) i = Some p ->
  nth_error (firstSeenFrom seen l) j = Some q ->
  (indexIn p l < indexIn q l)%nat.
Proof.
  revert seen i j; induction l as [|a l IH]; intros seen i j Hij Hp Hq;
    cbn [firstSeenFrom] in Hp, Hq.
  - now destruct i.
  - assert (Hnew : forall k x, nth_error (firstSeenFrom (a :: seen) l) k = Some x
                               -> (x =? a)%string = false).
    { intros k x Hx. apply nth_error_In, firstSeenFrom_In in Hx.
      destruct Hx as [_ Hx]. rewrite mem_cons in Hx.
      now apply orb_false_iff in Hx. }
    destruct (mem a seen) eqn:Ha.
    + assert (Hold : forall k x, nth_error (firstSeenFrom seen l) k = Some x
                                 -> (x =? a)%string = false).
      { intros k x Hx. apply nth_error_In, firstSeenFrom_In in Hx.
        destruct Hx as [_ Hx].
        destruct (String.eqb_spec x a) as [->|_]; congruence. }
      cbn [indexIn]. rewrite (Hold _ _ Hp), (Hold _ _ Hq).
      apply -> Nat.succ_lt_mono. apply (IH seen i j); assumption.
    + destruct j as [|j]; [lia|]. cbn [nth_error] in Hq.
      cbn [indexIn]. rewrite (Hnew _ _ Hq).
      destruct i as [|i]; cbn [nth_error] in Hp.
      * injection Hp as <-. rewrite String.eqb_refl. lia.
      * rewrite (Hnew _ _ Hp).
        apply -> Nat.succ_lt_mono.
        apply (IH (a :: seen) i j); [lia|assumption|assumption].
Qed.

(** *** The map of the first loop, read as a table over its keys *)

Lemma mapGet_table (f : string -> list string) (ps : list string) (k : string) :
  mapGet (map (fun p => (p, f p)) ps) k
  = if mem k ps then Some (f k) else None.
Proof.
  induction ps as [|a ps IH]; cbn [map mapGet]; [reflexivity|].
  rewrite mem_cons, (String.eqb_sym k a).
  destruct (String.eqb_spec a k) as [->|_]; [reflexivity|exact IH].
Qed.

Lemma mapSet_table_fresh (f : string -> list string) (ps : list string)
  (k : string) (v : list string) :
  mem k ps = false ->
  mapSet (map (fun p => (p, f p)) ps) k v
  = map (fun p => (p, f p)) ps ++ [(k, v)].
Proof.
  induction ps as [|a ps IH]; cbn [map mapSet app]; [reflexivity|].
  rewrite mem_cons, (String.eqb_sym k a). intros H.
  apply orb_false_iff in H as [Ha Hps].
  now rewrite Ha, (IH Hps).
Qed.

Lemma pushAt_table (f : string -> list string) (ps : list string)
  (k x : string) :
  NoDup ps ->
  pushAt (map (fun p => (p, f p)) ps) k x
  = map (fun p => (p, if (p =? k)%string then f p ++ [x] else f p)) ps.
Proof.
  induction 1 as [|a ps Ha Hnd IH]; cbn [map pushAt]; [reflexivity|].
  destruct (String.eqb_spec a k) as [->|_].
  - f_equal. apply map_ext_in. intros p Hp.
    destruct (String.eqb_spec p k) as [->|_]; [contradiction|reflexivity].
  - now rewrite IH.
Qed.

Lemma tasksOf_snoc (p : string) (ts : list ParsedTask) (t : ParsedTask) :
  tasksOf p (ts ++ [t])
  = tasksOf p ts ++ (if (project t =? p)%string then [task t] else []).
Proof.
  unfold tasksOf. rewrite filter_app, map_app. cbn [filter].
  now destruct (project t =? p)%string.
Qed.

Lemma tasksOf_absent (p : string) (ts : list ParsedTask) :
  mem p (map project ts) = false -> tasksOf p ts = [].
Proof.
  unfold tasksOf. induction ts as [|t ts IH]; cbn [map filter]; [reflexivity|].
  rewrite mem_cons, (String.eqb_sym p). intros H.
  apply orb_false_iff in H as [Ht Hts]. rewrite Ht. now apply IH.
Qed.

(** What the first loop leaves in the map. *)
Lemma groupStep_loop (ts : list ParsedTask) :
  fold_left groupStep ts []
  = map (fun p => (p, tasksOf p ts)) (firstSeen (map project ts)).
Proof.
  induction ts as [|t ts IH] using rev_ind; [reflexivity|].
  rewrite fold_left_app. cbn [fold_left]. rewrite IH. unfold groupStep.
  rewrite mapGet_table, mem_firstSeen, map_app. cbn [map].
  rewrite firstSeen_snoc.
  destruct (mem (project t) (map project ts)) eqn:Hm.
  - rewrite app_nil_r, pushAt_table by apply firstSeenFrom_NoDup.
    apply map_ext. intros p. rewrite tasksOf_snoc, (String.eqb_sym p).
    destruct (project t =? p)%string; [reflexivity|now rewrite app_nil_r].
  - rewrite mapSet_table_fresh by now rewrite mem_firstSeen.
    rewrite map_app. cbn [map]. f_equal.
    + apply map_ext_in. intros p Hp. rewrite tasksOf_snoc.
      destruct (String.eqb_spec (project t) p) as [E|_];
        [|now rewrite app_nil_r].
      apply (proj1 (firstSeen_In _ _)) in Hp.
      apply (proj2 (mem_In _ _)) in Hp. congruence.
    + rewrite tasksOf_snoc, String.eqb_refl, (tasksOf_absent _ _ Hm).
      reflexivity.
Qed.

(** What the second loop adds to [result]. *)
Lemma emitGroup_loop (m : TaskMap) (result : list ProjectGroup) :
  fold_left emitGroup m result
  = result ++ map (fun e => {| group_project := fst e;
                               group_tasks := Js.join (snd e) separator |}) m.
Proof.
  revert result; induction m as [|[p l] m IH]; intros result; cbn [fold_left map].
  - now rewrite app_nil_r.
  - rewrite IH. unfold emitGroup. now rewrite <- app_assoc.
Qed.

Lemma groupByProject_expected (tasks : list ParsedTask) :
  groupByProject tasks = expectedGroups tasks.
Proof.
  unfold groupByProject, expectedGroups.
  rewrite emitGroup_loop, groupStep_loop, map_map. reflexivity.
Qed.

End Grouper.

(** C5: grouping gives one group per distinct project, the projects in the
    order of their first appearance in the input, each group holding the
    names of its project's tasks in input order joined by " ::: "; from the
    empty input it gives the empty list. *)
Theorem groupByProject_first_seen_order (tasks : list ParsedTask) :
  let out := groupByProject tasks in
  out = expectedGroups tasks
  /\ map group_project out = firstSeen (map project tasks)
  /\ NoDup (map group_project out)
  /\ (forall p : string,
         In p (map group_project out) <-> In p (map project tasks))
  /\ (forall (i j : nat) (p q : string),
         (i < j)%nat ->
         nth_error (map group_project out) i = Some p ->
         nth_error (map group_project out) j = Some q ->
         (indexIn p (map project tasks) < indexIn q (map project tasks))%nat)
  /\ (forall g : ProjectGroup,
         In g out ->
         group_tasks g
         = Js.join (tasksOf (group_project g) tasks) " ::: ")
  /\ groupByProject [] = [].
Proof.
  cbv zeta.
  assert (Hp : map group_project (groupByProject tasks)
               = firstSeen (map project tasks)).
  { rewrite groupByProject_expected. unfold expectedGroups.
    rewrite map_map. cbn [group_project]. apply map_id. }
  rewrite Hp. repeat split.
  - apply groupByProject_expected.
  - apply firstSeenFrom_NoDup.
  - apply firstSeen_In.
  - apply firstSeen_In.
  - intros i j p q. apply firstSeenFrom_order.
  - intros g Hg. rewrite groupByProject_expected in Hg.
    apply in_map_iff in Hg as (p & <- & _). reflexivity.
Qed.

Lemma groupByProject_first_seen_order_witness :
  groupByProject
    [mkParsedTask "b" "//b:ci:build" "ci:build" [];
     mkParsedTask "a" "//a:ci:build" "ci:build" [];
     mkParsedTask "b" "//b:ci:build:docker" "ci:build:docker" []]
  = [mkProjectGroup "b" "//b:ci:build ::: //b:ci:build:docker";
     mkProjectGroup "a" "//a:ci:build"].
Proof.
  rewrite (proj1 (groupByProject_first_seen_order _)). reflexivity.
Defined.

(* ================================================================== *)
(** ** The change filter *)

Section ChangeFilter.

Local Open Scope list_scope.

Variable World : Type.
Variable spawn : World -> string -> list string -> ExecResult * World.

(** The array being filled only grows at its end: visiting with [result]
    is visiting with the empty array and putting [result] in front. *)
Lemma visit_result (baseRef : string) (result : list ParsedTask)
  (t : ParsedTask) (st : St World) :
  visit spawn baseRef result t st
  = (result ++ fst (visit spawn baseRef [] t st), snd (visit spawn baseRef [] t st)).
Proof.
  unfold visit, bind, exec, info, warning, emit, ret.
  destruct (Nat.eqb (List.length (sources t)) 0); [reflexivity|].
  destruct (spawn (world st) "git" (diffArgs baseRef t)) as [[code|] w];
    [|reflexivity].
  destruct (code =? 0)%Z; cbn [fst snd]; [now rewrite app_nil_r|reflexivity].
Qed.

Lemma forOf_result (baseRef : string) (tasks result : list ParsedTask)
  (st : St World) :
  forOf spawn baseRef tasks result st
  = (result ++ fst (forOf spawn baseRef tasks [] st),
     snd (forOf spawn baseRef tasks [] st)).
Proof.
  revert result st; induction tasks as [|t tasks IH]; intros result st;
    cbn [forOf]; unfold bind.
  - unfold ret. cbn [fst snd]. now rewrite app_nil_r.
  - rewrite (visit_result baseRef result), (visit_result baseRef []).
    cbn [app].
    rewrite (IH (result ++ _)), (IH (fst _)). cbn [fst snd].
    now rewrite app_assoc.
Qed.

(** The loop over [pre ++ post] is the loop over [pre], then the loop over
    [post] from the state the first one leaves. *)
Lemma forOf_app (baseRef : string) (pre post result : list ParsedTask)
  (st : St World) :
  forOf spawn baseRef (pre ++ post) result st
  = forOf spawn baseRef post (fst (forOf spawn baseRef pre result st))
      (snd (forOf spawn baseRef pre result st)).
Proof.
  revert result st; induction pre as [|t pre IH]; intros result st;
    cbn [app forOf]; unfold bind.
  - reflexivity.
  - destruct (visit spawn baseRef result t st) as [r st1]. apply IH.
Qed.

Lemma forOf_cons (baseRef : string) (t : ParsedTask)
  (post result : list ParsedTask) (st : St World) :
  forOf spawn baseRef (t :: post) result st
  = forOf spawn baseRef post (fst (visit spawn baseRef result t st))
      (snd (visit spawn baseRef result t st)).
Proof.
  cbn [forOf]. unfold bind.
  now destruct (visit spawn baseRef result t st).
Qed.

(** Visiting a task with sources: one call to git, then one message. *)
Lemma visit_sourced (baseRef : string) (t : ParsedTask) (st : St World) :
  sources t <> [] ->
  let q := spawn (world st) "git" (diffArgs baseRef t) in
  visit spawn baseRef [] t st
  = (match fst q with Resolved 0 => [] | _ => [t] end,
     {| world := snd q;
        events := events st
                  ++ [Exec "git" (diffArgs baseRef t);
                      match fst q with
                      | Resolved 0 =>
                          Info ("  " ++ task t ++ ": unchanged, skipped")
                      | Resolved _ =>
                          Info ("  " ++ task t ++ ": changed, included")
                      | Rejected =>
                          Warning ("  " ++ task t
                                   ++ ": git diff failed, included (fail-open)")
                      end] |}).
Proof.
  intros Hs. cbv zeta.
  unfold visit, bind, exec, info, warning, emit, ret.
  destruct (sources t) as [|g gs] eqn:Hg; [contradiction|].
  cbn [List.length Nat.eqb].
  destruct (spawn (world st) "git" (diffArgs baseRef t)) as [[code|] w];
    [destruct code|];
    cbn [Z.eqb fst snd world events]; rewrite <- app_assoc; reflexivity.
Qed.

(** Visiting a task without sources: one message, nothing spawned. *)
Lemma visit_unsourced (baseRef : string) (result : list ParsedTask)
  (t : ParsedTask) (st : St World) :
  sources t = [] ->
  visit spawn baseRef result t st
  = (result ++ [t],
     {| world := world st;
        events := events st
                  ++ [Info ("  " ++ task t ++ ": no sources, included")] |}).
Proof.
  intros Hs. unfold visit. now rewrite Hs.
Qed.

(** Nothing is ever taken out of the log. *)
Lemma visit_log (baseRef : string) (result : list ParsedTask)
  (t : ParsedTask) (st : St World) :
  exists evs,
    events (snd (visit spawn baseRef result t st)) = events st ++ evs
    /\ execCalls evs
       = if Nat.eqb (List.length (sources t)) 0 then []
         else [("git", diffArgs baseRef t)].
Proof.
  rewrite visit_result. cbn [snd].
  destruct (sources t) as [|g gs] eqn:Hs.
  - rewrite (visit_unsourced baseRef [] t st Hs). cbn [snd events].
    eexists. split; reflexivity.
  - rewrite visit_sourced by congruence. cbn [snd events].
    eexists. split; [reflexivity|].
    cbn [List.length Nat.eqb execCalls].
    now destruct (fst _) as [[| |]|].
Qed.

Lemma execCalls_app (evs1 evs2 : list Event) :
  execCalls (evs1 ++ evs2) = execCalls evs1 ++ execCalls evs2.
Proof.
  induction evs1 as [|[m|m|c a] evs1 IH]; cbn [app execCalls];
    [reflexivity|exact IH|exact IH|now rewrite IH].
Qed.

Lemma forOf_log (baseRef : string) (tasks result : list ParsedTask)
  (st : St World) :
  exists evs,
    events (snd (forOf spawn baseRef tasks result st)) = events st ++ evs
    /\ execCalls evs
       = map (fun t => ("git", diffArgs baseRef t))
           (filter (fun t => negb (Nat.eqb (List.length (sources t)) 0))
              tasks).
Proof.
  revert result st; induction tasks as [|t tasks IH]; intros result st.
  - exists []. cbn. now rewrite app_nil_r.
  - rewrite forOf_cons.
    destruct (visit_log baseRef result t st) as (e1 & He1 & Hc1).
    destruct (IH (fst (visit spawn baseRef result t st))
                 (snd (visit spawn baseRef result t st))) as (e2 & He2 & Hc2).
    exists (e1 ++ e2). split.
    + now rewrite He2, He1, app_assoc.
    + rewrite execCalls_app, Hc1, Hc2. cbn [filter].
      now destruct (Nat.eqb (List.length (sources t)) 0).
Qed.

Lemma filterByChangedSources_loop (tasks : list ParsedTask)
  (baseRef : string) (st : St World) :
  filterByChangedSources spawn tasks baseRef st
  = forOf spawn baseRef tasks []
      {| world := world st;
         events := events st
                   ++ [Info ("Filtering tasks by changes since "
                             ++ baseRef ++ "...")] |}.
Proof. reflexivity. Qed.

Lemma forOf_keeps_unsourced (baseRef : string) (tasks result : list ParsedTask)
  (t : ParsedTask) (st : St World) :
  In t tasks -> sources t = [] ->
  In t (fst (forOf spawn baseRef tasks result st)).
Proof.
  intros Hin Hs. apply in_split in Hin as (pre & post & ->).
  rewrite forOf_app, forOf_cons, (visit_unsourced _ _ _ _ Hs).
  cbn [fst snd]. rewrite forOf_result. cbn [fst].
  rewrite !in_app_iff. left. right. now left.
Qed.

(** C2: a task with sources is left out exactly when its diff query ends
    with code 0 and is kept for any other code; when the query throws the
    task is kept and a warning is logged; and whatever the query does, the
    tasks before and after are handled as they would be on their own. *)
Theorem filterByChangedSources_fail_open
  (baseRef : string) (pre post : list ParsedTask) (t : ParsedTask)
  (st : St World) :
  sources t <> [] ->
  let before := filterByChangedSources spawn pre baseRef st in
  let query := spawn (world (snd before)) "git" (diffArgs baseRef t) in
  let visited := visit spawn baseRef [] t (snd before) in
  let rest := forOf spawn baseRef post [] (snd visited) in
  let run := filterByChangedSources spawn (pre ++ t :: post) baseRef st in
  fst visited = match fst query with Resolved 0 => [] | _ => [t] end
  /\ (fst visited = [] <-> fst query = Resolved 0)
  /\ (forall code : Z,
         fst query = Resolved code -> code <> 0%Z -> fst visited = [t])
  /\ world (snd visited) = snd query
  /\ fst run = fst before ++ fst visited ++ fst rest
  /\ snd run = snd rest
  /\ (fst query = Rejected ->
      fst visited = [t]
      /\ In (Warning ("  " ++ task t
                      ++ ": git diff failed, included (fail-open)")%string)
            (events (snd run))).
Proof.
  intros Hs. cbv zeta.
  rewrite !filterByChangedSources_loop.
  set (st0 := {| world := world st; events := _ |}).
  rewrite forOf_app, forOf_cons.
  set (B := forOf spawn baseRef pre [] st0).
  rewrite (visit_result baseRef (fst B)). cbn [fst snd].
  rewrite (forOf_result baseRef post (fst B ++ _)). cbn [fst snd].
  pose proof (visit_sourced baseRef t (snd B) Hs) as HV. cbv zeta in HV.
  set (V := visit spawn baseRef [] t (snd B)) in *.
  split; [|split; [|split; [|split; [|split; [|split]]]]].
  - now rewrite HV.
  - rewrite HV. cbn [fst].
    destruct (fst (spawn (world (snd B)) "git" (diffArgs baseRef t)))
      as [[| |]|]; split; (reflexivity || discriminate).
  - intros code Hq Hcode. rewrite HV, Hq. cbn [fst].
    destruct code; [contradiction|reflexivity|reflexivity].
  - now rewrite HV.
  - now rewrite app_assoc.
  - reflexivity.
  - intros Hq. split.
    + now rewrite HV, Hq.
    + destruct (forOf_log baseRef post [] (snd V)) as (evs & -> & _).
      rewrite HV, Hq. cbn [snd events].
      rewrite !in_app_iff. left. right. right. now left.
Qed.

(** C7: a task without sources is always kept and has no query made for
    it; every task with sources has one query made for it, in input order;
    so the pass makes as many queries as there are tasks with sources. *)
Theorem filterByChangedSources_query_count
  (baseRef : string) (tasks : list ParsedTask) (st : St World) :
  let run := filterByChangedSources spawn tasks baseRef st in
  let sourced :=
    filter (fun t => negb (Nat.eqb (List.length (sources t)) 0)) tasks in
  (forall t : ParsedTask, In t tasks -> sources t = [] -> In t (fst run))
  /\ (forall (t : ParsedTask) (result : list ParsedTask) (st' : St World),
         sources t = [] ->
         let v := visit spawn baseRef result t st' in
         fst v = result ++ [t]
         /\ world (snd v) = world st'
         /\ execCalls (events (snd v)) = execCalls (events st'))
  /\ execCalls (events (snd run))
     = execCalls (events st)
       ++ map (fun t => ("git"%string, diffArgs baseRef t)) sourced
  /\ List.length (execCalls (events (snd run)))
     = (List.length (execCalls (events st)) + List.length sourced)%nat.
Proof.
  cbv zeta. rewrite filterByChangedSources_loop.
  set (st0 := {| world := world st; events := _ |}).
  assert (Hcalls :
    execCalls (events (snd (forOf spawn baseRef tasks [] st0)))
    = execCalls (events st)
      ++ map (fun t => ("git"%string, diffArgs baseRef t))
           (filter (fun t => negb (Nat.eqb (List.length (sources t)) 0))
              tasks)).
  { destruct (forOf_log baseRef tasks [] st0) as (evs & -> & Hc).
    subst st0. cbn [events]. rewrite !execCalls_app, Hc. cbn [execCalls].
    now rewrite app_nil_r. }
  split; [|split; [|split]].
  - intros t Hin Hs. now apply forOf_keeps_unsourced.
  - intros t result st' Hs.
    rewrite (visit_unsourced _ _ _ _ Hs). cbn [fst snd world events].
    rewrite execCalls_app. cbn [execCalls]. now rewrite app_nil_r.
  - exact Hcalls.
  - now rewrite Hcalls, length_app, length_map.
Qed.

(** C3 (as amended): one pathspec is built per source glob, and it is the
    glob magic ":(glob)" followed by the glob itself when the project is
    ".", by the project, a slash and the glob otherwise; these pathspecs,
    after the fixed arguments, are what the diff query is called with. *)
Theorem pathspecs_carry_glob_magic
  (baseRef : string) (t : ParsedTask) (st : St World) :
  pathspecs t
  = map (fun glob => (":(glob)" ++ statedPathspec t glob)%string) (sources t)
  /\ List.length (pathspecs t) = List.length (sources t)
  /\ (sources t <> [] ->
      execCalls (events (snd (visit spawn baseRef [] t st)))
      = execCalls (events st)
        ++ [("git"%string,
             ["diff"; "--quiet"; baseRef; "HEAD"; "--"]%string
             ++ pathspecs t)]).
Proof.
  repeat split.
  - unfold pathspecs. apply map_ext. intros glob.
    unfold pathspec, statedPathspec. now destruct (project t =? ".")%string.
  - apply length_map.
  - intros Hs. rewrite visit_sourced by assumption. cbn [snd events].
    rewrite execCalls_app. cbn [execCalls].
    now destruct (fst _) as [[| |]|].
Qed.

End ChangeFilter.

(** *** The change filter against a scripted outside *)

Lemma filterByChangedSources_fail_open_witness :
  let t1 := mkParsedTask "." "ci:lint" "ci:lint" [] in
  let t2 := mkParsedTask "." "ci:build" "ci:build" ["src/**"] in
  let t3 := mkParsedTask "." "ci:test" "ci:test" ["tests/**"] in
  let st := mkSt [Rejected; Resolved 0] [] in
  sources t2 <> []
  /\ fst (filterByChangedSources scripted ([t1] ++ t2 :: [t3]) "abc123" st)
     = [t1; t2]
  /\ In (Warning "  ci:build: git diff failed, included (fail-open)")
        (events (snd (filterByChangedSources scripted ([t1] ++ t2 :: [t3])
                        "abc123" st))).
Proof.
  cbv zeta. split; [discriminate|].
  pose proof (filterByChangedSources_fail_open (list ExecResult) scripted
                "abc123"
                [mkParsedTask "." "ci:lint" "ci:lint" []]
                [mkParsedTask "." "ci:test" "ci:test" ["tests/**"]]
                (mkParsedTask "." "ci:build" "ci:build" ["src/**"])
                (mkSt [Rejected; Resolved 0] [])
                ltac:(discriminate)) as H.
  cbv zeta in H. destruct H as (_ & _ & _ & _ & Hrun & _ & Hw).
  split.
  - rewrite Hrun. reflexivity.
  - apply Hw. reflexivity.
Defined.

Lemma filterByChangedSources_query_count_witness :
  let t1 := mkParsedTask "." "ci:lint" "ci:lint" [] in
  let t2 := mkParsedTask "." "ci:build" "ci:build" ["src/**"] in
  let t3 := mkParsedTask "." "ci:test" "ci:test" ["tests/**"] in
  let st := mkSt [Resolved 1; Resolved 0] [] in
  In t1 (fst (filterByChangedSources scripted [t1; t2; t3] "abc123" st))
  /\ List.length
       (execCalls (events (snd (filterByChangedSources scripted [t1; t2; t3]
                                  "abc123" st)))) = 2%nat.
Proof.
  cbv zeta.
  pose proof (filterByChangedSources_query_count (list ExecResult) scripted
                "abc123"
                [mkParsedTask "." "ci:lint" "ci:lint" [];
                 mkParsedTask "." "ci:build" "ci:build" ["src/**"];
                 mkParsedTask "." "ci:test" "ci:test" ["tests/**"]]
                (mkSt [Resolved 1; Resolved 0] [])) as H.
  cbv zeta in H. destruct H as (Hkeep & _ & _ & Hcount).
  split.
  - apply Hkeep; [now left|reflexivity].
  - rewrite Hcount. reflexivity.
Defined.

Lemma pathspecs_carry_glob_magic_witness :
  let t := mkParsedTask "services/api" "//services/api:ci:build" "ci:build"
             ["src/**"] in
  sources t <> []
  /\ execCalls (events (snd (visit scripted "abc123" [] t (mkSt [Resolved 1] []))))
     = [("git", ["diff"; "--quiet"; "abc123"; "HEAD"; "--";
                 ":(glob)services/api/src/**"])].
Proof.
  cbv zeta. split; [discriminate|].
  rewrite (proj2 (proj2 (pathspecs_carry_glob_magic (list ExecResult) scripted
                           "abc123"
                           (mkParsedTask "services/api"
                              "//services/api:ci:build" "ci:build" ["src/**"])
                           (mkSt [Resolved 1] []))) ltac:(discriminate)).
  reflexivity.
Defined.

(** C3, the claim as worded: the pathspec handed to the diff query is not
    the bare path; it carries the glob magic in front. *)
Lemma stated_pathspec_lacks_glob_magic :
  let t := mkParsedTask "services/api" "//services/api:ci:build" "ci:build"
             ["src/**"] in
  let root := mkParsedTask "." "ci:build" "ci:build" ["src/**"] in
  pathspecs t = [":(glob)services/api/src/**"]
  /\ map (statedPathspec t) (sources t) = ["services/api/src/**"]
  /\ pathspecs t <> map (statedPathspec t) (sources t)
  /\ pathspecs root = [":(glob)src/**"]
  /\ pathspecs root <> map (statedPathspec root) (sources root).
Proof. cbv zeta. repeat split; try reflexivity; discriminate. Qed.

(* ================================================================== *)
(** ** The scenarios of the test suite *)

(** No sources, changed, unchanged, changed. *)
Example mixed_changed_and_unchanged :
  fst (filterByChangedSources scripted
         [mkParsedTask "." "ci:build" "ci:build" [];
          mkParsedTask "." "ci:build:docker" "ci:build:docker" ["Dockerfile"];
          mkParsedTask "." "ci:build:helm" "ci:build:helm" ["charts/**"];
          mkParsedTask "." "ci:test" "ci:test" ["tests/**"]]
         "abc123"
         (mkSt [Resolved 1; Resolved 0; Resolved 1] []))
  = [mkParsedTask "." "ci:build" "ci:build" [];
     mkParsedTask "." "ci:build:docker" "ci:build:docker" ["Dockerfile"];
     mkParsedTask "." "ci:test" "ci:test" ["tests/**"]].
Proof. reflexivity. Qed.

(** An exit code that is neither 0 nor 1 keeps the task. *)
Example non_standard_exit_code :
  fst (filterByChangedSources scripted
         [mkParsedTask "." "ci:build" "ci:build" ["src/**"]]
         "abc123" (mkSt [Resolved 128] []))
  = [mkParsedTask "." "ci:build" "ci:build" ["src/**"]].
Proof. reflexivity. Qed.

(** Discovery without a base ref: parse, filter by prefix, group. *)
Example discover_by_prefix :
  groupByProject
    (filterByPrefix
       (parseMiseTasks
          [mkMiseTask "ci:build" (Js.Present ["src/**"]);
           mkMiseTask "ci:build:docker" (Js.Present ["Dockerfile"]);
           mkMiseTask "ci:test" Js.Undefined;
           mkMiseTask "ci:lint" Js.Undefined])
       "ci:build")
  = [mkProjectGroup "." "ci:build ::: ci:build:docker"].
Proof. reflexivity. Qed.

(** The prefix is compared as it is written: no case folding. *)
Example prefix_is_case_sensitive :
  filterByPrefix [mkParsedTask "." "CI:build" "CI:build" []] "ci:" = [].
Proof. reflexivity. Qed.

Example parse_deep_path :
  parseTask (mkMiseTask "//charts/public-helm/redis:ci:build" (Js.Present []))
  = mkParsedTask "charts/public-helm/redis"
      "//charts/public-helm/redis:ci:build" "ci:build" [].
Proof. reflexivity. Qed.

(* ================================================================== *)
(** ** More on the task normalizer *)

Lemma string_app_assoc (a b c : string) : (a ++ b) ++ c = a ++ (b ++ c).
Proof. induction a as [|x a IH]; cbn; [reflexivity|now rewrite IH]. Qed.

Lemma string_app_nil_r (a : string) : a ++ "" = a.
Proof. induction a as [|x a IH]; cbn; [reflexivity|now rewrite IH]. Qed.

(** The branch of the parser for a marker with no colon after it. *)
Lemma parseTask_no_colon (r : string) (src : Js.Optional (list string)) :
  occurs colon r = false ->
  parseTask (mkMiseTask ("//" ++ r) src)
  = {| project := if String.eqb r "" then "." else r;
       task := "//" ++ r;
       localName := "";
       sources := Js.nullish src [] |}.
Proof.
  intros Hr. rewrite parseTask_unfold. unfold qualifierOf.
  cbn [name raw_sources].
  change (Js.startsWith ("//" ++ r) "//") with true.
  change (Js.drop 2 ("//" ++ r)) with r. cbv iota zeta.
  destruct (indexOf_range r colon) as [[Hi _]|[_ Ho]]; [|congruence].
  now rewrite Hi.
Qed.

(** X1: a name that begins with the marker and has no colon after it keeps
    all that follows the marker as its project ("." when nothing follows)
    and gets the empty local name. *)
Theorem parseTask_marker_without_colon
  (r : string) (src : Js.Optional (list string)) :
  occurs colon r = false ->
  parseTask (mkMiseTask ("//" ++ r) src)
  = {| project := if String.eqb r "" then "." else r;
       task := "//" ++ r;
       localName := "";
       sources := Js.nullish src [] |}.
Proof. apply parseTask_no_colon. Qed.

Lemma parseTask_marker_without_colon_witness :
  parseTask (mkMiseTask "//services/api" Js.Undefined)
  = mkParsedTask "services/api" "//services/api" "" [].
Proof.
  apply (parseTask_marker_without_colon "services/api" Js.Undefined).
  reflexivity.
Defined.

(** X2: the project of a parsed task never has a colon in it. *)
Theorem parseTask_project_has_no_colon (t : MiseTask) :
  occurs colon (project (parseTask t)) = false.
Proof.
  rewrite parseTask_unfold. cbn [project]. unfold qualifierOf.
  destruct (Js.startsWith (name t) "//"); [|reflexivity].
  cbv zeta.
  assert (H : occurs colon
                (if Js.indexOf (Js.drop 2 (name t)) colon >=? 0
                 then Js.take (Z.to_nat (Js.indexOf (Js.drop 2 (name t)) colon))
                        (Js.drop 2 (name t))
                 else Js.drop 2 (name t)) = false).
  { destruct (indexOf_range (Js.drop 2 (name t)) colon) as [[Hi Ho]|[Hi Ho]].
    - rewrite Hi. exact Ho.
    - destruct (Z.geb_spec (Js.indexOf (Js.drop 2 (name t)) colon) 0);
        [|lia].
      apply (indexOf_split _ _ Ho). }
  destruct (String.eqb _ ""); [reflexivity|exact H].
Qed.

(** X3: the local name is always the end of the task name; and a name with
    the marker and a colon is the marker, the project, a colon and the local
    name put together again, the project being left out when it was empty. *)
Theorem parseTask_reassembles (t : MiseTask) :
  (exists front : string,
      task (parseTask t) = front ++ localName (parseTask t))
  /\ (Js.startsWith (name t) "//" = true ->
      occurs colon (Js.drop 2 (name t)) = true ->
      name t = "//" ++ project (parseTask t) ++ ":" ++ localName (parseTask t)
      \/ (project (parseTask t) = "."
          /\ name t = "//:" ++ localName (parseTask t))).
Proof.
  split.
  - destruct (Js.startsWith (name t) "//") eqn:Hm.
    + destruct (occurs colon (Js.drop 2 (name t))) eqn:Hc.
      * destruct (qualified_form _ Hm Hc) as (p & l & Hn & Hp).
        destruct t as [n src]. cbn [name] in *. subst n.
        rewrite (parseTask_qualified p l src Hp). cbn [task localName].
        exists ("//" ++ p ++ ":").
        now rewrite !string_app_assoc.
      * apply startsWith_literal in Hm as [r Hr].
        destruct t as [n src]. cbn [name] in *. subst n.
        change (Js.drop 2 ("//" ++ r)) with r in Hc.
        rewrite (parseTask_no_colon r src Hc).
        cbn [task localName]. exists ("//" ++ r).
        now rewrite string_app_nil_r.
    + exists "". rewrite parseTask_unfold. cbn [task localName].
      now rewrite Hm.
  - intros Hm Hc.
    destruct (qualified_form _ Hm Hc) as (p & l & Hn & Hp).
    destruct t as [n src]. cbn [name] in *. subst n.
    rewrite (parseTask_qualified p l src Hp). cbn [project localName].
    destruct (String.eqb_spec p "") as [->|_]; [right|left]; now split.
Qed.

Lemma parseTask_reassembles_witness :
  "//services/api:ci:build"
  = "//" ++ project (parseTask (mkMiseTask "//services/api:ci:build"
                                  Js.Undefined))
      ++ ":" ++ localName (parseTask (mkMiseTask "//services/api:ci:build"
                                        Js.Undefined))
  \/ (project (parseTask (mkMiseTask "//services/api:ci:build" Js.Undefined))
      = "."
      /\ "//services/api:ci:build"
         = "//:" ++ localName (parseTask (mkMiseTask "//services/api:ci:build"
                                            Js.Undefined))).
Proof.
  apply (proj2 (parseTask_reassembles
                  (mkMiseTask "//services/api:ci:build" Js.Undefined)));
    reflexivity.
Defined.

(* ================================================================== *)
(** ** More on the prefix filter *)

Section PrefixFilter.

Local Open Scope list_scope.

Lemma startsWith_longer (s p r : string) :
  Js.startsWith s (p ++ r)%string = true -> Js.startsWith s p = true.
Proof.
  rewrite !startsWith_literal. intros [x ->].
  exists (r ++ x)%string. apply string_app_assoc.
Qed.

Lemma startsWith_empty (p : string) :
  p <> "" -> Js.startsWith "" p = false.
Proof. now destruct p. Qed.

Lemma filter_implied {A : Type} (f g : A -> bool) (l : list A) :
  (forall x, f x = true -> g x = true) ->
  filter f (filter g l) = filter f l.
Proof.
  intros Hfg. induction l as [|x l IH]; cbn [filter]; [reflexivity|].
  destruct (g x) eqn:Hg; cbn [filter].
  - now rewrite IH.
  - destruct (f x) eqn:Hf; [|exact IH].
    rewrite (Hfg x Hf) in Hg. discriminate.
Qed.

Lemma filter_swap {A : Type} (f g : A -> bool) (l : list A) :
  filter f (filter g l) = filter g (filter f l).
Proof.
  induction l as [|x l IH]; cbn [filter]; [reflexivity|].
  destruct (g x) eqn:Hg, (f x) eqn:Hf; cbn [filter];
    rewrite ?Hg, ?Hf, IH; reflexivity.
Qed.

Lemma filterByPrefix_filter (tasks : list ParsedTask) (prefix : string) :
  filterByPrefix tasks prefix
  = filter (fun t => Js.startsWith (localName t) prefix) tasks.
Proof.
  unfold filterByPrefix. destruct (String.eqb_spec prefix "") as [->|_].
  - induction tasks as [|t tasks IH]; cbn [filter]; [reflexivity|].
    change (Js.startsWith (localName t) "") with true. cbv iota.
    f_equal. exact IH.
  - reflexivity.
Qed.

Lemma parseTask_plain (t : MiseTask) :
  Js.startsWith (name t) "//" = false ->
  parseTask t
  = {| project := "."; task := name t; localName := name t;
       sources := Js.nullish (raw_sources t) [] |}.
Proof.
  intros Hm. rewrite parseTask_unfold. unfold qualifierOf. now rewrite Hm.
Qed.

End PrefixFilter.

(** X4: filtering by a prefix and then by a longer prefix that extends it
    is filtering by the longer one alone; in particular filtering twice by
    the same prefix changes nothing. *)
Theorem filterByPrefix_narrows (tasks : list ParsedTask) (p r : string) :
  filterByPrefix (filterByPrefix tasks p) (p ++ r) = filterByPrefix tasks (p ++ r)
  /\ filterByPrefix (filterByPrefix tasks p) p = filterByPrefix tasks p.
Proof.
  rewrite !filterByPrefix_filter. split.
  - apply filter_implied. intros t. apply startsWith_longer.
  - apply filter_implied. auto.
Qed.

(** X5: two prefix filters give the same list in either order. *)
Theorem filterByPrefix_commutes (tasks : list ParsedTask) (p q : string) :
  filterByPrefix (filterByPrefix tasks p) q
  = filterByPrefix (filterByPrefix tasks q) p.
Proof. rewrite !filterByPrefix_filter. apply filter_swap. Qed.

(** X6: a raw task whose name is the marker followed by a path without any
    colon is never in what a non-empty prefix keeps, whatever the prefix and
    the other tasks are. *)
Theorem filterByPrefix_drops_names_without_colon
  (raw : list MiseTask) (prefix r : string) (src : Js.Optional (list string)) :
  occurs colon r = false ->
  prefix <> "" ->
  ~ In (parseTask (mkMiseTask ("//" ++ r) src))
       (filterByPrefix (parseMiseTasks raw) prefix).
Proof.
  intros Hr Hp Hin. rewrite filterByPrefix_filter in Hin.
  apply filter_In in Hin as [_ Hs].
  rewrite (parseTask_no_colon r src Hr) in Hs.
  cbn [localName] in Hs. rewrite (startsWith_empty prefix Hp) in Hs.
  discriminate.
Qed.

Lemma filterByPrefix_drops_names_without_colon_witness :
  ~ In (parseTask (mkMiseTask "//services/api" Js.Undefined))
       (filterByPrefix
          (parseMiseTasks [mkMiseTask "//services/api" Js.Undefined;
                           mkMiseTask "ci:build" Js.Undefined])
          "ci").
Proof.
  apply (filterByPrefix_drops_names_without_colon
           [mkMiseTask "//services/api" Js.Undefined;
            mkMiseTask "ci:build" Js.Undefined]
           "ci" "services/api" Js.Undefined).
  - reflexivity.
  - discriminate.
Defined.

(** X7: when no raw name begins with the marker, the names that parsing
    and prefix filtering keep are the raw names that begin with the prefix,
    in their order. *)
Theorem filterByPrefix_on_plain_names (raw : list MiseTask) (prefix : string) :
  (forall t, In t raw -> Js.startsWith (name t) "//" = false) ->
  map task (filterByPrefix (parseMiseTasks raw) prefix)
  = filter (fun n => Js.startsWith n prefix) (map name raw).
Proof.
  intros Hraw. rewrite filterByPrefix_filter. unfold parseMiseTasks.
  induction raw as [|t raw IH]; [reflexivity|].
  cbn [map filter].
  rewrite (parseTask_plain t (Hraw t (or_introl eq_refl))). cbn [localName].
  destruct (Js.startsWith (name t) prefix); cbn [map task];
    rewrite IH by (intros u Hu; apply Hraw; now right); reflexivity.
Qed.

Lemma filterByPrefix_on_plain_names_witness :
  map task (filterByPrefix
              (parseMiseTasks [mkMiseTask "ci:build" Js.Undefined;
                               mkMiseTask "dev:serve" Js.Undefined;
                               mkMiseTask "ci:test" Js.Undefined]) "ci:")
  = ["ci:build"; "ci:test"].
Proof.
  rewrite (filterByPrefix_on_plain_names
             [mkMiseTask "ci:build" Js.Undefined;
              mkMiseTask "dev:serve" Js.Undefined;
              mkMiseTask "ci:test" Js.Undefined] "ci:").
  - reflexivity.
  - intros t [<-|[<-|[<-|[]]]]; reflexivity.
Defined.

(* ================================================================== *)
(** ** More on the project grouper *)

Section GrouperMore.

Local Open Scope list_scope.

Lemma mapSet_absent (m : TaskMap) (k : string) (v : list string) :
  mapGet m k = None -> mapSet m k v = m ++ [(k, v)].
Proof.
  induction m as [|[k' v'] m IH]; cbn [mapGet mapSet app]; [reflexivity|].
  destruct (k' =? k)%string; [discriminate|].
  intros H. now rewrite (IH H).
Qed.

Lemma mapGet_snoc (m : TaskMap) (k k' : string) (v : list string) :
  mapGet (m ++ [(k', v)]) k
  = match mapGet m k with
    | Some l => Some l
    | None => if (k' =? k)%string then Some v else None
    end.
Proof.
  induction m as [|[k0 v0] m IH]; cbn [mapGet app]; [reflexivity|].
  now destruct (k0 =? k)%string.
Qed.

Lemma mapGet_pushAt (m : TaskMap) (k k' x : string) :
  mapGet (pushAt m k x) k'
  = if (k =? k')%string then option_map (fun l => l ++ [x]) (mapGet m k')
    else mapGet m k'.
Proof.
  induction m as [|[k0 v0] m IH]; cbn [mapGet pushAt].
  - now destruct (k =? k')%string.
  - destruct (String.eqb_spec k0 k) as [->|Hk0]; cbn [mapGet].
    + destruct (String.eqb_spec k k') as [->|Hk]; [reflexivity|].
      reflexivity.
    + rewrite IH.
      destruct (String.eqb_spec k0 k') as [->|_]; [|reflexivity].
      destruct (String.eqb_spec k k') as [->|_]; [contradiction|reflexivity].
Qed.

Lemma keys_pushAt (m : TaskMap) (k x : string) :
  map fst (pushAt m k x) = map fst m.
Proof.
  induction m as [|[k0 v0] m IH]; cbn [map pushAt]; [reflexivity|].
  destruct (k0 =? k)%string; cbn [map fst]; [reflexivity|now rewrite IH].
Qed.

Lemma contents_pushAt (m : TaskMap) (k x : string) (l : list string) :
  mapGet m k = Some l ->
  Permutation (List.concat (map snd (pushAt m k x))) (List.concat (map snd m) ++ [x]).
Proof.
  induction m as [|[k0 v0] m IH]; cbn [mapGet pushAt]; [discriminate|].
  destruct (k0 =? k)%string; cbn [map snd List.concat]; intros H.
  - rewrite <- !app_assoc. apply Permutation_app_head, Permutation_app_comm.
  - rewrite <- app_assoc. apply Permutation_app_head, IH, H.
Qed.

Lemma contents_groupStep (m : TaskMap) (t : ParsedTask) :
  Permutation (List.concat (map snd (groupStep m t)))
              (List.concat (map snd m) ++ [task t]).
Proof.
  unfold groupStep. destruct (mapGet m (project t)) as [l|] eqn:Hg.
  - eapply contents_pushAt; eauto.
  - rewrite (mapSet_absent _ _ _ Hg), map_app, concat_app. cbn.
    reflexivity.
Qed.

Lemma contents_groupStep_loop (tasks : list ParsedTask) (m : TaskMap) :
  Permutation (List.concat (map snd (fold_left groupStep tasks m)))
              (List.concat (map snd m) ++ map task tasks).
Proof.
  revert m; induction tasks as [|t tasks IH]; intros m; cbn [fold_left map].
  - now rewrite app_nil_r.
  - rewrite IH, contents_groupStep, <- app_assoc. reflexivity.
Qed.

Lemma firstSeenFrom_all_seen (seen l : list string) :
  (forall x, In x l -> mem x seen = true) -> firstSeenFrom seen l = [].
Proof.
  induction l as [|a l IH]; intros H; cbn [firstSeenFrom]; [reflexivity|].
  rewrite (H a (or_introl eq_refl)). apply IH. intros x Hx. apply H. now right.
Qed.

Lemma firstSeenFrom_length (seen l : list string) :
  (List.length (firstSeenFrom seen l) <= List.length l)%nat.
Proof.
  revert seen; induction l as [|a l IH]; intros seen; cbn [firstSeenFrom].
  - apply Nat.le_refl.
  - destruct (mem a seen); cbn [List.length].
    + specialize (IH seen). lia.
    + specialize (IH (a :: seen)). lia.
Qed.

Lemma tasksOf_present (p : string) (tasks : list ParsedTask) :
  In p (map project tasks) -> tasksOf p tasks <> [].
Proof.
  intros Hin. apply in_map_iff in Hin as (t & Ht & Hin).
  unfold tasksOf. intros E. apply map_eq_nil in E.
  assert (Hf : In t (filter (fun t => (project t =? p)%string) tasks)).
  { apply filter_In. split; [assumption|]. rewrite Ht. apply String.eqb_refl. }
  rewrite E in Hf. exact Hf.
Qed.

(** All the tasks in one project: one group. *)
Lemma groupByProject_one_project (tasks : list ParsedTask) (p : string) :
  tasks <> [] ->
  (forall t, In t tasks -> project t = p) ->
  groupByProject tasks
  = [ {| group_project := p;
         group_tasks := Js.join (map task tasks) separator |} ].
Proof.
  intros Hne Hall. rewrite groupByProject_expected. unfold expectedGroups.
  destruct tasks as [|t tasks]; [contradiction|].
  assert (Hf : firstSeen (map project (t :: tasks)) = [p]).
  { unfold firstSeen. cbn [map firstSeenFrom mem existsb].
    rewrite (Hall t (or_introl eq_refl)). f_equal.
    apply firstSeenFrom_all_seen. intros x Hx.
    apply in_map_iff in Hx as (u & <- & Hu).
    rewrite (Hall u (or_intror Hu)), mem_cons, String.eqb_refl. reflexivity. }
  rewrite Hf. cbn [map]. unfold tasksOf.
  rewrite forallb_filter_id; [reflexivity|].
  apply forallb_forall. intros u Hu.
  rewrite (Hall u Hu). apply String.eqb_refl.
Qed.

End GrouperMore.

(** X8: the body of the grouping loop appends the task's name to the list
    kept under the task's project, starting a list when there is none, and
    leaves the list under every other project as it was; a project met for
    the first time goes to the end of the keys, the other keys stay put. *)
Theorem groupStep_lookup (m : TaskMap) (t : ParsedTask) :
  mapGet (groupStep m t) (project t)
  = Some (match mapGet m (project t) with
          | Some l => l ++ [task t]
          | None => [task t]
          end)%list
  /\ (forall k : string,
         k <> project t -> mapGet (groupStep m t) k = mapGet m k)
  /\ map fst (groupStep m t)
     = (map fst m ++ match mapGet m (project t) with
                     | Some _ => []
                     | None => [project t]
                     end)%list.
Proof.
  unfold groupStep. destruct (mapGet m (project t)) as [l|] eqn:Hg.
  - split; [|split].
    + now rewrite mapGet_pushAt, String.eqb_refl, Hg.
    + intros k Hk. rewrite mapGet_pushAt.
      destruct (String.eqb_spec (project t) k); [congruence|reflexivity].
    + now rewrite keys_pushAt, app_nil_r.
  - rewrite (mapSet_absent _ _ _ Hg). split; [|split].
    + now rewrite mapGet_snoc, Hg, String.eqb_refl.
    + intros k Hk. rewrite mapGet_snoc.
      destruct (mapGet m k); [reflexivity|].
      destruct (String.eqb_spec (project t) k); [congruence|reflexivity].
    + now rewrite map_app.
Qed.

Lemma groupStep_lookup_witness :
  mapGet (groupStep [("a", ["a:x"]); ("b", ["b:y"])]
            (mkParsedTask "b" "b:z" "z" [])) "a"
  = Some ["a:x"].
Proof.
  rewrite (proj1 (proj2 (groupStep_lookup [("a", ["a:x"]); ("b", ["b:y"])]
                           (mkParsedTask "b" "b:z" "z" []))) "a").
  - reflexivity.
  - discriminate.
Defined.

(** X9: the first loop of the grouping loses no task and repeats none: the
    lists of the map it builds, put end to end, are a rearrangement of the
    task names of the input, so their lengths add up to the number of
    tasks. *)
Theorem groupByProject_keeps_every_task (tasks : list ParsedTask) :
  Permutation (List.concat (map snd (fold_left groupStep tasks [])))
              (map task tasks)
  /\ List.length (List.concat (map snd (fold_left groupStep tasks [])))
     = List.length tasks.
Proof.
  assert (H := contents_groupStep_loop tasks []). cbn [map List.concat app] in H.
  split; [exact H|].
  now rewrite (Permutation_length H), length_map.
Qed.

(** X10: grouping gives no group exactly when there is no task, never more
    groups than tasks, and every group it gives has at least one task. *)
Theorem groupByProject_groups_are_inhabited (tasks : list ParsedTask) :
  (groupByProject tasks = [] <-> tasks = [])
  /\ (List.length (groupByProject tasks) <= List.length tasks)%nat
  /\ (forall g : ProjectGroup,
         In g (groupByProject tasks) ->
         tasksOf (group_project g) tasks <> []).
Proof.
  rewrite groupByProject_expected. unfold expectedGroups. split; [|split].
  - split.
    + intros H. apply map_eq_nil in H.
      destruct tasks as [|t tasks]; [reflexivity|].
      discriminate H.
    + now intros ->.
  - rewrite length_map.
    etransitivity; [apply firstSeenFrom_length|]. now rewrite length_map.
  - intros g Hg. apply in_map_iff in Hg as (p & <- & Hp).
    cbn [group_project]. apply tasksOf_present.
    now apply (proj1 (firstSeen_In _ _)).
Qed.

Lemma groupByProject_groups_are_inhabited_witness :
  tasksOf "a" [mkParsedTask "a" "//a:x" "x" []; mkParsedTask "b" "//b:y" "y" []]
  <> [].
Proof.
  apply (proj2 (proj2 (groupByProject_groups_are_inhabited
                         [mkParsedTask "a" "//a:x" "x" [];
                          mkParsedTask "b" "//b:y" "y" []]))
           (mkProjectGroup "a" "//a:x")).
  now left.
Defined.

(** X11: tasks that all have the same project, at least one of them, give
    a single group: that project with all the task names joined in input
    order. *)
Theorem groupByProject_single_project (tasks : list ParsedTask) (p : string) :
  tasks <> [] ->
  (forall t, In t tasks -> project t = p) ->
  groupByProject tasks
  = [ {| group_project := p;
         group_tasks := Js.join (map task tasks) " ::: " |} ].
Proof. apply groupByProject_one_project. Qed.

Lemma groupByProject_single_project_witness :
  groupByProject [mkParsedTask "." "ci:build" "ci:build" [];
                  mkParsedTask "." "ci:test" "ci:test" []]
  = [mkProjectGroup "." "ci:build ::: ci:test"].
Proof.
  apply (groupByProject_single_project
           [mkParsedTask "." "ci:build" "ci:build" [];
            mkParsedTask "." "ci:test" "ci:test" []] ".").
  - discriminate.
  - intros t [<-|[<-|[]]]; reflexivity.
Defined.

(** X12: raw tasks none of which has the marker, at least one of them, are
    grouped into the single project "." with their names joined in input
    order. *)
Theorem groupByProject_of_plain_names (raw : list MiseTask) :
  raw <> [] ->
  (forall t, In t raw -> Js.startsWith (name t) "//" = false) ->
  groupByProject (parseMiseTasks raw)
  = [ {| group_project := ".";
         group_tasks := Js.join (map name raw) " ::: " |} ].
Proof.
  intros Hne Hraw.
  rewrite (groupByProject_one_project (parseMiseTasks raw) ".").
  - unfold parseMiseTasks. rewrite map_map. do 3 f_equal.
    apply map_ext. intros t. now rewrite parseTask_unfold.
  - destruct raw; [contradiction|discriminate].
  - intros pt Hpt. apply in_map_iff in Hpt as (t & <- & Ht).
    now rewrite (parseTask_plain t (Hraw t Ht)).
Qed.

Lemma groupByProject_of_plain_names_witness :
  groupByProject (parseMiseTasks [mkMiseTask "ci:build" Js.Undefined;
                                  mkMiseTask "dev:serve" Js.Null])
  = [mkProjectGroup "." "ci:build ::: dev:serve"].
Proof.
  apply (groupByProject_of_plain_names
           [mkMiseTask "ci:build" Js.Undefined;
            mkMiseTask "dev:serve" Js.Null]).
  - discriminate.
  - intros t [<-|[<-|[]]]; reflexivity.
Defined.

(* ================================================================== *)
(** ** More on the change filter *)

Section ChangeFilterMore.

Local Open Scope list_scope.

Variable World : Type.
Variable spawn : World -> string -> list string -> ExecResult * World.

Lemma Subseq_refl {A : Type} (l : list A) : Subseq l l.
Proof. induction l; constructor; assumption. Qed.

Lemma Subseq_length {A : Type} (l1 l2 : list A) :
  Subseq l1 l2 -> (List.length l1 <= List.length l2)%nat.
Proof. induction 1; cbn [List.length]; lia. Qed.

Lemma Subseq_In {A : Type} (l1 l2 : list A) (x : A) :
  Subseq l1 l2 -> In x l1 -> In x l2.
Proof.
  induction 1 as [|y l1 l2 _ IH|y l1 l2 _ IH]; cbn [In]; intuition.
Qed.

(** One turn of the loop, seen from the empty array. *)
Lemma forOf_step (baseRef : string) (t : ParsedTask)
  (rest : list ParsedTask) (st : St World) :
  forOf spawn baseRef (t :: rest) [] st
  = (fst (visit spawn baseRef [] t st)
     ++ fst (forOf spawn baseRef rest [] (snd (visit spawn baseRef [] t st))),
     snd (forOf spawn baseRef rest [] (snd (visit spawn baseRef [] t st)))).
Proof. now rewrite forOf_cons, forOf_result. Qed.

(** What one task adds to the result, read off the way its query ended. *)
Lemma visit_kept (baseRef : string) (t : ParsedTask) (st : St World) :
  fst (visit spawn baseRef [] t st)
  = if negb (sourced t)
       || kept (fst (spawn (world st) "git" (diffArgs baseRef t)))
    then [t] else [].
Proof.
  unfold sourced. destruct (sources t) as [|g gs] eqn:Hs.
  - now rewrite (visit_unsourced _ _ _ _ _ _ Hs).
  - rewrite visit_sourced by congruence. cbn [fst List.length Nat.eqb negb orb].
    now destruct (fst _) as [[| |]|].
Qed.

Lemma warnings_app (evs1 evs2 : list Event) :
  warnings (evs1 ++ evs2) = warnings evs1 ++ warnings evs2.
Proof.
  induction evs1 as [|[m|m|c a] evs1 IH]; cbn [app warnings];
    [reflexivity|exact IH|now rewrite IH|exact IH].
Qed.

Lemma messages_app (evs1 evs2 : list Event) :
  messages (evs1 ++ evs2) = messages evs1 ++ messages evs2.
Proof.
  induction evs1 as [|[m|m|c a] evs1 IH]; cbn [app messages];
    [reflexivity|now rewrite IH|now rewrite IH|exact IH].
Qed.

(** What one task adds to the log. *)
Lemma visit_events (baseRef : string) (t : ParsedTask) (st : St World) :
  exists evs,
    events (snd (visit spawn baseRef [] t st)) = events st ++ evs
    /\ List.length (messages evs) = 1%nat
    /\ warnings evs
       = if sourced t
         then match fst (spawn (world st) "git" (diffArgs baseRef t)) with
              | Rejected =>
                  [("  " ++ task t
                    ++ ": git diff failed, included (fail-open)")%string]
              | Resolved _ => []
              end
         else [].
Proof.
  unfold sourced. destruct (sources t) as [|g gs] eqn:Hs.
  - rewrite (visit_unsourced _ _ _ _ _ _ Hs). cbn [snd events].
    eexists. repeat split.
  - rewrite visit_sourced by congruence. cbn [snd events].
    eexists. split; [reflexivity|].
    cbn [List.length Nat.eqb negb].
    now destruct (fst _) as [[| |]|].
Qed.

Lemma forOf_subseq (baseRef : string) (tasks : list ParsedTask)
  (st : St World) :
  Subseq (fst (forOf spawn baseRef tasks [] st)) tasks.
Proof.
  revert st; induction tasks as [|t tasks IH]; intros st.
  - constructor.
  - rewrite forOf_step, visit_kept. cbn [fst].
    destruct (_ || _); cbn [app]; constructor; apply IH.
Qed.

Lemma forOf_stateless (answer : string -> list string -> ExecResult)
  (baseRef : string) (tasks : list ParsedTask) (st : St World) :
  (forall w cmd args, fst (spawn w cmd args) = answer cmd args) ->
  fst (forOf spawn baseRef tasks [] st)
  = filter (fun t => negb (sourced t)
                     || kept (answer "git"%string (diffArgs baseRef t)))
      tasks.
Proof.
  intros Hans. revert st; induction tasks as [|t tasks IH]; intros st.
  - reflexivity.
  - rewrite forOf_step, visit_kept, Hans. cbn [fst filter].
    rewrite IH. now destruct (_ || _).
Qed.

Lemma forOf_events (baseRef : string) (tasks : list ParsedTask)
  (st : St World) :
  exists evs,
    events (snd (forOf spawn baseRef tasks [] st)) = events st ++ evs
    /\ List.length (messages evs) = List.length tasks.
Proof.
  revert st; induction tasks as [|t tasks IH]; intros st.
  - exists []. cbn. now rewrite app_nil_r.
  - rewrite forOf_step. cbn [snd].
    destruct (visit_events baseRef t st) as (e1 & He1 & Hm1 & _).
    destruct (IH (snd (visit spawn baseRef [] t st))) as (e2 & He2 & Hm2).
    exists (e1 ++ e2). split.
    + now rewrite He2, He1, app_assoc.
    + rewrite messages_app, length_app, Hm1, Hm2. reflexivity.
Qed.

Lemma forOf_all_rejected (baseRef : string) (tasks : list ParsedTask)
  (st : St World) :
  (forall w cmd args, fst (spawn w cmd args) = Rejected) ->
  warnings (events (snd (forOf spawn baseRef tasks [] st)))
  = warnings (events st)
    ++ map (fun t => ("  " ++ task t
                      ++ ": git diff failed, included (fail-open)")%string)
         (filter sourced tasks).
Proof.
  intros Hrej. revert st; induction tasks as [|t tasks IH]; intros st.
  - cbn. now rewrite app_nil_r.
  - rewrite forOf_step. cbn [snd]. rewrite IH.
    destruct (visit_events baseRef t st) as (e1 & -> & _ & Hw).
    rewrite warnings_app, Hw, Hrej, <- app_assoc. cbn [filter].
    now destruct (sourced t).
Qed.

Lemma forOf_all_unsourced (baseRef : string) (tasks : list ParsedTask)
  (st : St World) :
  (forall t, In t tasks -> sources t = []) ->
  fst (forOf spawn baseRef tasks [] st) = tasks
  /\ world (snd (forOf spawn baseRef tasks [] st)) = world st
  /\ execCalls (events (snd (forOf spawn baseRef tasks [] st)))
     = execCalls (events st).
Proof.
  revert st; induction tasks as [|t tasks IH]; intros st Hall.
  - now repeat split.
  - rewrite forOf_step.
    rewrite (visit_unsourced _ _ _ _ _ _ (Hall t (or_introl eq_refl))).
    cbn [fst snd app].
    destruct (IH {| world := world st;
                    events := events st
                              ++ [Info ("  " ++ task t
                                        ++ ": no sources, included")] |}
                 (fun u Hu => Hall u (or_intror Hu))) as (H1 & H2 & H3).
    rewrite H1, H2, H3. cbn [world events].
    rewrite execCalls_app. cbn [execCalls]. now rewrite app_nil_r.
Qed.

End ChangeFilterMore.

(** X13: whatever the diff queries answer, the change filter only leaves
    tasks out: its result is the input with some tasks dropped, the others
    in their order; so it is no longer than the input and holds no task the
    input did not have. *)
Theorem filterByChangedSources_only_drops
  (World : Type) (spawn : World -> string -> list string -> ExecResult * World)
  (tasks : list ParsedTask) (baseRef : string) (st : St World) :
  let result := fst (filterByChangedSources spawn tasks baseRef st) in
  Subseq result tasks
  /\ (List.length result <= List.length tasks)%nat
  /\ (forall t, In t result -> In t tasks).
Proof.
  cbv zeta. rewrite filterByChangedSources_loop.
  pose proof (forOf_subseq World spawn baseRef tasks
                {| world := world st;
                   events := (events st
                              ++ [Info ("Filtering tasks by changes since "
                                        ++ baseRef ++ "...")])%list |}) as H.
  split; [exact H|]. split.
  - now apply Subseq_length.
  - intros t. now apply Subseq_In.
Qed.

(** X14: when the way a diff query ends depends only on its arguments, the
    change filter is a plain filter: it keeps the tasks without sources and
    those whose query does not end with code 0; and running it again on its
    own result gives that result back. *)
Theorem filterByChangedSources_stateless
  (World : Type) (spawn : World -> string -> list string -> ExecResult * World)
  (answer : string -> list string -> ExecResult)
  (tasks : list ParsedTask) (baseRef : string) (st st' : St World) :
  (forall w cmd args, fst (spawn w cmd args) = answer cmd args) ->
  let keep := fun t => negb (sourced t)
                       || kept (answer "git" (diffArgs baseRef t)) in
  fst (filterByChangedSources spawn tasks baseRef st) = filter keep tasks
  /\ fst (filterByChangedSources spawn
            (fst (filterByChangedSources spawn tasks baseRef st)) baseRef st')
     = fst (filterByChangedSources spawn tasks baseRef st).
Proof.
  intros Hans. cbv zeta. rewrite !filterByChangedSources_loop.
  rewrite !(forOf_stateless World spawn answer) by exact Hans.
  split; [reflexivity|]. apply filter_implied. auto.
Qed.

Lemma filterByChangedSources_stateless_witness :
  let spawn := fun (w : unit) (cmd : string) (args : list string) =>
                 (if Nat.eqb (List.length args) 6 then Resolved 0
                  else Resolved 1, w) in
  let tasks := [mkParsedTask "." "ci:lint" "ci:lint" [];
                mkParsedTask "." "ci:build" "ci:build" ["src/**"];
                mkParsedTask "." "ci:test" "ci:test" ["tests/**"; "src/**"]] in
  fst (filterByChangedSources spawn tasks "abc123" (mkSt tt []))
  = [mkParsedTask "." "ci:lint" "ci:lint" [];
     mkParsedTask "." "ci:test" "ci:test" ["tests/**"; "src/**"]].
Proof.
  cbv zeta.
  rewrite (proj1 (filterByChangedSources_stateless unit
                    (fun w cmd args =>
                       (if Nat.eqb (List.length args) 6 then Resolved 0
                        else Resolved 1, w))
                    (fun cmd args =>
                       if Nat.eqb (List.length args) 6 then Resolved 0
                       else Resolved 1)
                    _ "abc123" (mkSt tt []) (mkSt tt [])
                    (fun w cmd args => eq_refl))).
  reflexivity.
Defined.

(** X15: when every diff query throws, as when git cannot be run at all,
    the change filter returns its input unchanged and warns once for each
    task with sources, in input order. *)
Theorem filterByChangedSources_git_unavailable
  (World : Type) (spawn : World -> string -> list string -> ExecResult * World)
  (tasks : list ParsedTask) (baseRef : string) (st : St World) :
  (forall w cmd args, fst (spawn w cmd args) = Rejected) ->
  fst (filterByChangedSources spawn tasks baseRef st) = tasks
  /\ warnings (events (snd (filterByChangedSources spawn tasks baseRef st)))
     = (warnings (events st)
        ++ map (fun t => ("  " ++ task t
                          ++ ": git diff failed, included (fail-open)")%string)
             (filter sourced tasks))%list.
Proof.
  intros Hrej. rewrite !filterByChangedSources_loop. split.
  - rewrite (forOf_stateless World spawn (fun _ _ => Rejected))
      by exact Hrej.
    cbn [kept]. apply forallb_filter_id, forallb_forall.
    intros t _. apply orb_true_r.
  - rewrite forOf_all_rejected by exact Hrej. cbn [events].
    rewrite warnings_app. cbn [warnings]. now rewrite app_nil_r.
Qed.

Lemma filterByChangedSources_git_unavailable_witness :
  let spawn := fun (w : unit) (cmd : string) (args : list string) =>
                 (Rejected, w) in
  let tasks := [mkParsedTask "." "ci:lint" "ci:lint" [];
                mkParsedTask "." "ci:build" "ci:build" ["src/**"]] in
  fst (filterByChangedSources spawn tasks "abc123" (mkSt tt [])) = tasks.
Proof.
  cbv zeta.
  apply (filterByChangedSources_git_unavailable unit
           (fun w cmd args => (Rejected, w))
           [mkParsedTask "." "ci:lint" "ci:lint" [];
            mkParsedTask "." "ci:build" "ci:build" ["src/**"]]
           "abc123" (mkSt tt [])).
  reflexivity.
Defined.

(** X16: the change filter first logs its header, naming the base ref, and
    then exactly one message, info or warning, for each task of the input;
    nothing that was in the log before is touched. *)
Theorem filterByChangedSources_log
  (World : Type) (spawn : World -> string -> list string -> ExecResult * World)
  (tasks : list ParsedTask) (baseRef : string) (st : St World) :
  exists evs : list Event,
    events (snd (filterByChangedSources spawn tasks baseRef st))
    = (events st
       ++ Info ("Filtering tasks by changes since " ++ baseRef ++ "...")
          :: evs)%list
    /\ List.length (messages evs) = List.length tasks.
Proof.
  rewrite filterByChangedSources_loop.
  destruct (forOf_events World spawn baseRef tasks
              {| world := world st;
                 events := (events st
                            ++ [Info ("Filtering tasks by changes since "
                                      ++ baseRef ++ "...")])%list |})
    as (evs & He & Hm).
  exists evs. split; [|exact Hm].
  rewrite He. cbn [events]. now rewrite <- app_assoc.
Qed.

(** X17: when no task has sources the change filter returns its input
    unchanged, spawns no process and leaves the outside as it found it. *)
Theorem filterByChangedSources_nothing_to_query
  (World : Type) (spawn : World -> string -> list string -> ExecResult * World)
  (tasks : list ParsedTask) (baseRef : string) (st : St World) :
  (forall t, In t tasks -> sources t = []) ->
  fst (filterByChangedSources spawn tasks baseRef st) = tasks
  /\ world (snd (filterByChangedSources spawn tasks baseRef st)) = world st
  /\ execCalls (events (snd (filterByChangedSources spawn tasks baseRef st)))
     = execCalls (events st).
Proof.
  intros Hall. rewrite !filterByChangedSources_loop.
  destruct (forOf_all_unsourced World spawn baseRef tasks
              {| world := world st;
                 events := (events st
                            ++ [Info ("Filtering tasks by changes since "
                                      ++ baseRef ++ "...")])%list |} Hall)
    as (H1 & H2 & H3).
  rewrite H1, H2, H3. cbn [world events].
  rewrite execCalls_app. cbn [execCalls]. now rewrite app_nil_r.
Qed.

Lemma filterByChangedSources_nothing_to_query_witness :
  fst (filterByChangedSources scripted
         [mkParsedTask "." "ci:lint" "ci:lint" [];
          mkParsedTask "a" "//a:ci:test" "ci:test" []]
         "abc123" (mkSt [Resolved 0] []))
  = [mkParsedTask "." "ci:lint" "ci:lint" [];
     mkParsedTask "a" "//a:ci:test" "ci:test" []].
Proof.
  apply (filterByChangedSources_nothing_to_query (list ExecResult) scripted
           [mkParsedTask "." "ci:lint" "ci:lint" [];
            mkParsedTask "a" "//a:ci:test" "ci:test" []]
           "abc123" (mkSt [Resolved 0] [])).
  intros t [<-|[<-|[]]]; reflexivity.
Defined.

(** X18: the pathspecs of a parsed task follow the form of its raw name: a
    name without the marker, or with the empty qualifier ([//:task]), gives
    the declared globs with only the glob magic in front; a name [//p:task]
    with [p] neither empty nor "." gives them under [p/]. *)
Theorem pathspecs_of_parsed_task
  (p l : string) (srcs : list string) :
  (forall n : string,
      Js.startsWith n "//" = false ->
      pathspecs (parseTask (mkMiseTask n (Js.Present srcs)))
      = map (fun glob => ":(glob)" ++ glob) srcs)
  /\ pathspecs (parseTask (mkMiseTask ("//:" ++ l) (Js.Present srcs)))
     = map (fun glob => ":(glob)" ++ glob) srcs
  /\ (occurs colon p = false -> p <> "" -> p <> "." ->
      pathspecs (parseTask (mkMiseTask ("//" ++ p ++ ":" ++ l)
                              (Js.Present srcs)))
      = map (fun glob => ":(glob)" ++ p ++ "/" ++ glob) srcs).
Proof.
  split; [|split].
  - intros n Hn.
    now rewrite (parseTask_plain (mkMiseTask n (Js.Present srcs)) Hn).
  - change ("//:" ++ l) with ("//" ++ "" ++ String colon l).
    now rewrite parseTask_qualified.
  - intros Hc Hne Hdot.
    change ("//" ++ p ++ ":" ++ l) with ("//" ++ p ++ String colon l).
    rewrite (parseTask_qualified p l _ Hc).
    unfold pathspecs, pathspec. cbn [project sources Js.nullish].
    destruct (String.eqb_spec p "") as [?|_]; [contradiction|].
    destruct (String.eqb_spec p ".") as [?|_]; [contradiction|].
    reflexivity.
Qed.

Lemma pathspecs_of_parsed_task_witness :
  pathspecs (parseTask (mkMiseTask ("//" ++ "services/api" ++ ":" ++ "ci:build")
                          (Js.Present ["src/**"; "pyproject.toml"])))
  = [":(glob)services/api/src/**"; ":(glob)services/api/pyproject.toml"].
Proof.
  apply (proj2 (proj2 (pathspecs_of_parsed_task "services/api" "ci:build"
                         ["src/**"; "pyproject.toml"])));
    (reflexivity || discriminate).
Defined.

(* ================================================================== *)
(** ** The orchestration *)

Section MainFacts.

Local Open Scope list_scope.

Variable World : Type.
Variable process : World -> string -> list string -> ProcessEnd * World.
Variable getInput : string -> Completion string.
Variable jsonParse : string -> option (list MiseTask).
Variable jsonStringify : list ProjectGroup -> string.

Local Notation "'execMiseTasksLs'" :=
  (Main.execMiseTasksLs World process jsonParse).
Local Notation "'discover'" :=
  (Main.discover World process getInput jsonParse jsonStringify).
Local Notation "'run'" :=
  (Main.run World process getInput jsonParse jsonStringify).
Local Notation "'logProjects'" := (Main.logProjects World).
Local Notation "'spawn'" := (Main.spawn World process).
Local Notation "'miseArgs'" := (["tasks"; "ls"; "--all"; "--json"]%string).

Lemma spawned_app (e1 e2 : list Effect) :
  Main.spawned (e1 ++ e2) = Main.spawned e1 ++ Main.spawned e2.
Proof.
  induction e1 as [|[[m|m|c a]|n v|m] e1 IH]; cbn [app Main.spawned];
    rewrite ?IH; reflexivity.
Qed.

Lemma outputs_app (e1 e2 : list Effect) :
  Main.outputs (e1 ++ e2) = Main.outputs e1 ++ Main.outputs e2.
Proof.
  induction e1 as [|[e|n v|m] e1 IH]; cbn [app Main.outputs];
    rewrite ?IH; reflexivity.
Qed.

Lemma failures_app (e1 e2 : list Effect) :
  Main.failures (e1 ++ e2) = Main.failures e1 ++ Main.failures e2.
Proof.
  induction e1 as [|[e|n v|m] e1 IH]; cbn [app Main.failures];
    rewrite ?IH; reflexivity.
Qed.

Lemma logged_events (evs : list Event) :
  Main.spawned (map Logged evs) = execCalls evs
  /\ Main.outputs (map Logged evs) = []
  /\ Main.failures (map Logged evs) = [].
Proof.
  induction evs as [|[m|m|c a] evs (IH1 & IH2 & IH3)];
    cbn [map Main.spawned Main.outputs Main.failures execCalls];
    rewrite ?IH1; auto.
Qed.

Lemma logProjects_effects (projects : list ProjectGroup) (s : Main.Run World) :
  logProjects projects s
  = (Returned tt,
     {| Main.outside := Main.outside s;
        Main.effects :=
          Main.effects s
          ++ map (fun p => Logged (Info ("  " ++ group_project p ++ ": "
                                         ++ group_tasks p)))
               projects |}).
Proof.
  revert s; induction projects as [|p projects IH]; intros [w effs].
  - cbn. now rewrite app_nil_r.
  - cbn [Main.logProjects]. unfold Main.bind, Main.coreInfo, Main.perform.
    rewrite IH. cbn [Main.outside Main.effects map].
    now rewrite <- app_assoc.
Qed.

(** How the listing ends, by the way the mise process ends. *)
Lemma execMiseTasksLs_cases (s : Main.Run World) :
  let started :=
    {| Main.outside := snd (process (Main.outside s) "mise" miseArgs);
       Main.effects := Main.effects s ++ [Logged (Exec "mise" miseArgs)] |} in
  let warn := fun msg =>
    {| Main.outside := Main.outside started;
       Main.effects := Main.effects started ++ [Logged (Warning msg)] |} in
  execMiseTasksLs s
  = match fst (process (Main.outside s) "mise" miseArgs) with
    | NotSpawned e => (Threw e, started)
    | Exited code out =>
        if negb (code =? 0)%Z then
          (Returned [],
           warn "mise tasks ls failed, returning empty task list"%string)
        else
          match jsonParse out with
          | Some tasks => (Returned tasks, started)
          | None =>
              (Returned [],
               warn "Failed to parse mise tasks ls output as JSON"%string)
          end
    end.
Proof.
  cbv zeta. unfold Main.execMiseTasksLs, Main.bind, Main.execCapture.
  destruct (process (Main.outside s) "mise" miseArgs) as [[code out|e] w];
    cbn [fst snd]; [|reflexivity].
  destruct (negb (code =? 0)%Z); [reflexivity|].
  now destruct (jsonParse out).
Qed.

(** What follows a listing that returned. *)
Lemma discover_listed (s s1 : Main.Run World) (p b : string)
  (raw : list MiseTask) :
  getInput "task-prefix" = Returned p ->
  getInput "base-ref" = Returned b ->
  execMiseTasksLs s = (Returned raw, s1) ->
  let matched := filterByPrefix (parseMiseTasks raw) p in
  let detected :=
    filterByChangedSources spawn matched b (mkSt (Main.outside s1) []) in
  let filtered := if String.eqb b "" then matched else fst detected in
  let projects := groupByProject filtered in
  discover s
  = (Returned tt,
     {| Main.outside := if String.eqb b "" then Main.outside s1
                        else world (snd detected);
        Main.effects :=
          Main.effects s1
          ++ (if String.eqb b "" then []
              else map Logged (events (snd detected)))
          ++ [SetOutput "projects" (jsonStringify projects);
              Logged (Info ("Discovered " ++ showNat (List.length projects)
                            ++ " project(s) matching '" ++ p ++ "*':"))]
          ++ map (fun g => Logged (Info ("  " ++ group_project g ++ ": "
                                         ++ group_tasks g)))
               projects |}).
Proof.
  intros Hp Hb Hls. cbv zeta.
  unfold Main.discover, Main.bind, Main.coreGetInput.
  rewrite Hp, Hb, Hls.
  destruct (String.eqb b "").
  - unfold Main.ret, Main.setOutput, Main.coreInfo, Main.perform.
    rewrite logProjects_effects. cbn [Main.outside Main.effects app].
    now rewrite <- !app_assoc.
  - unfold Main.changeDetector.
    destruct (filterByChangedSources spawn
                (filterByPrefix (parseMiseTasks raw) p) b
                (mkSt (Main.outside s1) [])) as [kept st'].
    unfold Main.setOutput, Main.coreInfo, Main.perform.
    rewrite logProjects_effects. cbn [Main.outside Main.effects fst snd app].
    now rewrite <- !app_assoc.
Qed.

(** A listing that throws ends the [try] block there. *)
Lemma discover_not_listed (s s1 : Main.Run World) (p b : string)
  (e : Thrown) :
  getInput "task-prefix" = Returned p ->
  getInput "base-ref" = Returned b ->
  execMiseTasksLs s = (Threw e, s1) ->
  discover s = (Threw e, s1).
Proof.
  intros Hp Hb Hls.
  unfold Main.discover, Main.bind, Main.coreGetInput.
  now rewrite Hp, Hb, Hls.
Qed.

Lemma discover_input_threw (s : Main.Run World) (e : Thrown) :
  getInput "task-prefix" = Threw e
  \/ (exists p, getInput "task-prefix" = Returned p
                /\ getInput "base-ref" = Threw e) ->
  discover s = (Threw e, s).
Proof.
  unfold Main.discover, Main.bind, Main.coreGetInput.
  intros [Hp|(p & Hp & Hb)]; now rewrite Hp, ?Hb.
Qed.

Lemma run_caught (s s1 : Main.Run World) (e : Thrown) :
  discover s = (Threw e, s1) ->
  run s
  = (Returned tt,
     {| Main.outside := Main.outside s1;
        Main.effects :=
          Main.effects s1
          ++ [SetFailed match e with
                        | ErrorObject message => message
                        | OtherValue => "An unexpected error occurred"%string
                        end] |}).
Proof.
  intros H. unfold Main.run, Main.tryCatch. rewrite H.
  now destruct e.
Qed.

Lemma run_returned (s s1 : Main.Run World) :
  discover s = (Returned tt, s1) -> run s = (Returned tt, s1).
Proof. intros H. unfold Main.run, Main.tryCatch. now rewrite H. Qed.

Lemma infos_quiet (f : ProjectGroup -> string) (projects : list ProjectGroup) :
  Main.spawned (map (fun g => Logged (Info (f g))) projects) = []
  /\ Main.outputs (map (fun g => Logged (Info (f g))) projects) = []
  /\ Main.failures (map (fun g => Logged (Info (f g))) projects) = [].
Proof.
  induction projects as [|g projects (H1 & H2 & H3)];
    cbn [map Main.spawned Main.outputs Main.failures]; auto.
Qed.

(** The listing adds the mise process to the log and, at most, a warning;
    it sets no output and reports no failure. *)
Lemma execMiseTasksLs_effects (s : Main.Run World) :
  exists pre,
    Main.effects (snd (execMiseTasksLs s)) = Main.effects s ++ pre
    /\ Main.spawned pre = [("mise"%string, miseArgs)]
    /\ Main.outputs pre = []
    /\ Main.failures pre = [].
Proof.
  rewrite execMiseTasksLs_cases. cbv zeta.
  destruct (fst (process (Main.outside s) "mise" miseArgs)) as [code out|e].
  - destruct (negb (code =? 0)%Z); [|destruct (jsonParse out)];
      cbn [snd Main.effects]; rewrite <- ?app_assoc;
      eexists; (split; [reflexivity|]); repeat split.
  - cbn [snd Main.effects]. eexists. split; [reflexivity|]. repeat split.
Qed.

(** X19: [run] itself never throws, and it reports exactly once: either it
    calls [setFailed] once and sets no output, or it sets the output
    "projects" once and reports no failure. *)
Theorem run_reports_exactly_once (s : Main.Run World) :
  fst (run s) = Returned tt
  /\ exists effs : list Effect,
       Main.effects (snd (run s)) = Main.effects s ++ effs
       /\ ((Main.outputs effs = []
            /\ exists message, Main.failures effs = [message])
           \/ (Main.failures effs = []
               /\ exists value,
                    Main.outputs effs = [("projects"%string, value)])).
Proof.
  destruct (getInput "task-prefix") as [p|e] eqn:Hp.
  2:{ rewrite (run_caught s s e) by (apply discover_input_threw; now left).
      split; [reflexivity|]. eexists. split; [reflexivity|].
      left. split; [reflexivity|]. eexists. reflexivity. }
  destruct (getInput "base-ref") as [b|e] eqn:Hb.
  2:{ rewrite (run_caught s s e)
        by (apply discover_input_threw; right; exists p; now split).
      split; [reflexivity|]. eexists. split; [reflexivity|].
      left. split; [reflexivity|]. eexists. reflexivity. }
  destruct (execMiseTasksLs_effects s) as (pre & Hpre & _ & Hout & Hfail).
  destruct (execMiseTasksLs s) as [[raw|e] s1] eqn:Hls; cbn [snd] in Hpre.
  - rewrite (run_returned s _ (discover_listed s s1 p b raw Hp Hb Hls)).
    split; [reflexivity|]. cbn [snd Main.effects]. rewrite Hpre.
    rewrite <- app_assoc. eexists. split; [reflexivity|].
    right. rewrite !failures_app, !outputs_app, Hout, Hfail.
    destruct (infos_quiet (fun g => ("  " ++ group_project g ++ ": "
                                     ++ group_tasks g)%string)
                (groupByProject
                   (if (b =? "")%string
                    then filterByPrefix (parseMiseTasks raw) p
                    else fst (filterByChangedSources spawn
                                (filterByPrefix (parseMiseTasks raw) p) b
                                (mkSt (Main.outside s1) [])))))
      as (_ & Ho & Hf).
    rewrite Ho, Hf.
    destruct (logged_events
                (events (snd (filterByChangedSources spawn
                                (filterByPrefix (parseMiseTasks raw) p) b
                                (mkSt (Main.outside s1) [])))))
      as (_ & Ho' & Hf').
    destruct (b =? "")%string; rewrite ?Ho', ?Hf';
      (split; [reflexivity|eexists; reflexivity]).
  - rewrite (run_caught s s1 e (discover_not_listed s s1 p b e Hp Hb Hls)).
    split; [reflexivity|]. cbn [snd Main.effects]. rewrite Hpre.
    rewrite <- app_assoc. eexists. split; [reflexivity|].
    left. rewrite failures_app, outputs_app, Hout, Hfail.
    split; [reflexivity|]. eexists. reflexivity.
Qed.

(** X20: when reading an input throws, [run] spawns nothing and only calls
    [setFailed], with the message of the error, or with the fixed message
    when what was thrown is not an error; when mise cannot be spawned it
    does the same after that one attempt. *)
Theorem run_fails_with_the_message (s : Main.Run World) (e : Thrown) :
  let message := match e with
                 | ErrorObject message => message
                 | OtherValue => "An unexpected error occurred"%string
                 end in
  ((getInput "task-prefix" = Threw e
    \/ exists p, getInput "task-prefix" = Returned p
                 /\ getInput "base-ref" = Threw e) ->
   run s = (Returned tt,
            {| Main.outside := Main.outside s;
               Main.effects := Main.effects s ++ [SetFailed message] |}))
  /\ (forall p b : string,
         getInput "task-prefix" = Returned p ->
         getInput "base-ref" = Returned b ->
         fst (process (Main.outside s) "mise" miseArgs) = NotSpawned e ->
         run s
         = (Returned tt,
            {| Main.outside := snd (process (Main.outside s) "mise" miseArgs);
               Main.effects := Main.effects s
                               ++ [Logged (Exec "mise" miseArgs);
                                   SetFailed message] |})).
Proof.
  cbv zeta. split.
  - intros H. now rewrite (run_caught s s e (discover_input_threw s e H)).
  - intros p b Hp Hb Hproc.
    assert (Hls := execMiseTasksLs_cases s). cbv zeta in Hls.
    rewrite Hproc in Hls.
    rewrite (run_caught s _ e (discover_not_listed s _ p b e Hp Hb Hls)).
    cbn [Main.outside Main.effects]. now rewrite <- app_assoc.
Qed.

(** X21: when mise exits with a code other than 0, or writes what is not
    JSON, [run] still succeeds: it warns, spawns nothing else, and sets the
    output to the serialized empty list, whatever the prefix and the base
    ref are. *)
Theorem run_without_listing (s : Main.Run World) (p b : string)
  (code : Z) (out : string) :
  getInput "task-prefix" = Returned p ->
  getInput "base-ref" = Returned b ->
  fst (process (Main.outside s) "mise" miseArgs) = Exited code out ->
  code <> 0%Z \/ jsonParse out = None ->
  run s
  = (Returned tt,
     {| Main.outside := snd (process (Main.outside s) "mise" miseArgs);
        Main.effects :=
          Main.effects s
          ++ [Logged (Exec "mise" miseArgs);
              Logged (Warning
                        (if (code =? 0)%Z
                         then "Failed to parse mise tasks ls output as JSON"
                         else "mise tasks ls failed, returning empty task list"))]
          ++ (if (b =? "")%string then []
              else [Logged (Info ("Filtering tasks by changes since "
                                  ++ b ++ "..."))])
          ++ [SetOutput "projects" (jsonStringify []);
              Logged (Info ("Discovered 0 project(s) matching '"
                            ++ p ++ "*':"))] |}).
Proof.
  intros Hp Hb Hproc Hbad.
  assert (Hls := execMiseTasksLs_cases s). cbv zeta in Hls.
  rewrite Hproc in Hls.
  assert (Hls' :
    execMiseTasksLs s
    = (Returned [],
       {| Main.outside := snd (process (Main.outside s) "mise" miseArgs);
          Main.effects :=
            (Main.effects s ++ [Logged (Exec "mise" miseArgs)])
            ++ [Logged (Warning
                          (if (code =? 0)%Z
                           then "Failed to parse mise tasks ls output as JSON"
                           else "mise tasks ls failed, returning empty task list"))]
       |})).
  { rewrite Hls. destruct (Z.eqb_spec code 0) as [Hc|Hc]; cbn [negb].
    - destruct Hbad as [?|Hj]; [contradiction|]. now rewrite Hj.
    - reflexivity. }
  rewrite (run_returned s _ (discover_listed s _ p b [] Hp Hb Hls')).
  cbn [Main.outside Main.effects].
  assert (Hm : filterByPrefix (parseMiseTasks []) p = [])
    by (unfold filterByPrefix; now destruct (p =? "")%string).
  rewrite Hm.
  destruct (b =? "")%string; cbn; now rewrite <- !app_assoc.
Qed.

(** X22: without a base ref, and with a listing that parses, [run] spawns
    mise and nothing else, sets the output to the serialized groups of the
    tasks the prefix keeps, and logs the number of groups and then one line
    for each group. *)
Theorem run_without_base_ref (s : Main.Run World) (p out : string)
  (raw : list MiseTask) :
  getInput "task-prefix" = Returned p ->
  getInput "base-ref" = Returned ""%string ->
  fst (process (Main.outside s) "mise" miseArgs) = Exited 0 out ->
  jsonParse out = Some raw ->
  let projects := groupByProject (filterByPrefix (parseMiseTasks raw) p) in
  run s
  = (Returned tt,
     {| Main.outside := snd (process (Main.outside s) "mise" miseArgs);
        Main.effects :=
          Main.effects s
          ++ [Logged (Exec "mise" miseArgs);
              SetOutput "projects" (jsonStringify projects);
              Logged (Info ("Discovered " ++ showNat (List.length projects)
                            ++ " project(s) matching '" ++ p ++ "*':"))]
          ++ map (fun g => Logged (Info ("  " ++ group_project g ++ ": "
                                         ++ group_tasks g)))
               projects |}).
Proof.
  intros Hp Hb Hproc Hj. cbv zeta.
  assert (Hls := execMiseTasksLs_cases s). cbv zeta in Hls.
  rewrite Hproc, Hj in Hls. cbn [Z.eqb negb] in Hls.
  rewrite (run_returned s _ (discover_listed s _ p "" raw Hp Hb Hls)).
  cbn [String.eqb Main.outside Main.effects app].
  now rewrite <- !app_assoc.
Qed.

(** X23: with a base ref, and with a listing that parses, [run] spawns mise
    and then one git diff for each task with sources that the prefix keeps,
    in their order, and sets the output to the serialized groups of what the
    change filter returns, which are tasks the prefix kept. *)
Theorem run_with_base_ref (s : Main.Run World) (p b out : string)
  (raw : list MiseTask) :
  getInput "task-prefix" = Returned p ->
  getInput "base-ref" = Returned b ->
  b <> ""%string ->
  fst (process (Main.outside s) "mise" miseArgs) = Exited 0 out ->
  jsonParse out = Some raw ->
  let matched := filterByPrefix (parseMiseTasks raw) p in
  let changed :=
    fst (filterByChangedSources spawn matched b
           (mkSt (snd (process (Main.outside s) "mise" miseArgs)) [])) in
  Main.spawned (Main.effects (snd (run s)))
  = Main.spawned (Main.effects s)
    ++ ("mise"%string, miseArgs)
       :: map (fun t => ("git"%string, diffArgs b t)) (filter sourced matched)
  /\ Main.outputs (Main.effects (snd (run s)))
     = Main.outputs (Main.effects s)
       ++ [("projects"%string, jsonStringify (groupByProject changed))]
  /\ Main.failures (Main.effects (snd (run s))) = Main.failures (Main.effects s)
  /\ Subseq changed matched.
Proof.
  intros Hp Hb Hne Hproc Hj. cbv zeta.
  assert (Hls := execMiseTasksLs_cases s). cbv zeta in Hls.
  rewrite Hproc, Hj in Hls. cbn [Z.eqb negb] in Hls.
  rewrite (run_returned s _ (discover_listed s _ p b raw Hp Hb Hls)).
  destruct (String.eqb_spec b "") as [?|_]; [contradiction|].
  cbn [snd Main.outside Main.effects].
  set (matched := filterByPrefix (parseMiseTasks raw) p).
  set (st0 := mkSt (snd (process (Main.outside s) "mise" miseArgs)) []).
  destruct (infos_quiet (fun g => ("  " ++ group_project g ++ ": "
                                   ++ group_tasks g)%string)
              (groupByProject
                 (fst (filterByChangedSources spawn matched b st0))))
    as (Hs1 & Ho1 & Hf1).
  destruct (logged_events
              (events (snd (filterByChangedSources spawn matched b st0))))
    as (Hs2 & Ho2 & Hf2).
  rewrite !spawned_app, !outputs_app, !failures_app.
  rewrite Hs1, Ho1, Hf1, Hs2, Ho2, Hf2.
  cbn [Main.spawned Main.outputs Main.failures app].
  rewrite !app_nil_r.
  split; [|split; [|split]]; try reflexivity.
  - rewrite filterByChangedSources_loop.
    destruct (forOf_log World spawn b matched []
                {| world := world st0;
                   events := events st0
                             ++ [Info ("Filtering tasks by changes since "
                                       ++ b ++ "...")] |})
      as (evs & -> & Hc).
    subst st0. cbn [events app execCalls]. rewrite Hc.
    now rewrite <- app_assoc.
  - rewrite filterByChangedSources_loop. apply forOf_subseq.
Qed.

End MainFacts.

(** *** The orchestration against a scripted outside *)

Lemma run_fails_with_the_message_witness :
  Main.run (list ProcessEnd) scriptedProcess
    (fun _ => Threw (ErrorObject "input error")) (parseListing "" []) showGroups
    (Main.mkRun [] [])
  = (Returned tt, Main.mkRun [] [SetFailed "input error"]).
Proof.
  apply (proj1 (run_fails_with_the_message (list ProcessEnd) scriptedProcess
                  (fun _ => Threw (ErrorObject "input error"))
                  (parseListing "" []) showGroups
                  (Main.mkRun [] []) (ErrorObject "input error"))).
  left. reflexivity.
Defined.

Lemma run_without_listing_witness :
  Main.outputs
    (Main.effects
       (snd (Main.run (list ProcessEnd) scriptedProcess
               (inputs "ci:build" "abc123") (parseListing "LISTING" [])
               showGroups (Main.mkRun [Exited 1 ""] []))))
  = [("projects", "")].
Proof.
  rewrite (run_without_listing (list ProcessEnd) scriptedProcess
             (inputs "ci:build" "abc123") (parseListing "LISTING" [])
             showGroups (Main.mkRun [Exited 1 ""] []) "ci:build" "abc123"
             1 "").
  - reflexivity.
  - reflexivity.
  - reflexivity.
  - reflexivity.
  - left. discriminate.
Defined.

Lemma run_without_base_ref_witness :
  Main.outputs
    (Main.effects
       (snd (Main.run (list ProcessEnd) scriptedProcess
               (inputs "ci:build" "")
               (parseListing "LISTING"
                  [mkMiseTask "ci:build" (Js.Present ["src/**"]);
                   mkMiseTask "ci:build:docker" (Js.Present ["Dockerfile"]);
                   mkMiseTask "ci:test" Js.Undefined;
                   mkMiseTask "ci:lint" Js.Undefined])
               showGroups (Main.mkRun [Exited 0 "LISTING"] []))))
  = [("projects", ". = ci:build ::: ci:build:docker")].
Proof.
  rewrite (run_without_base_ref (list ProcessEnd) scriptedProcess
             (inputs "ci:build" "")
             (parseListing "LISTING"
                [mkMiseTask "ci:build" (Js.Present ["src/**"]);
                 mkMiseTask "ci:build:docker" (Js.Present ["Dockerfile"]);
                 mkMiseTask "ci:test" Js.Undefined;
                 mkMiseTask "ci:lint" Js.Undefined])
             showGroups (Main.mkRun [Exited 0 "LISTING"] [])
             "ci:build" "LISTING"
             [mkMiseTask "ci:build" (Js.Present ["src/**"]);
              mkMiseTask "ci:build:docker" (Js.Present ["Dockerfile"]);
              mkMiseTask "ci:test" Js.Undefined;
              mkMiseTask "ci:lint" Js.Undefined]);
    reflexivity.
Defined.

Lemma run_with_base_ref_witness :
  Main.outputs
    (Main.effects
       (snd (Main.run (list ProcessEnd) scriptedProcess
               (inputs "ci:build" "abc123")
               (parseListing "LISTING"
                  [mkMiseTask "ci:build" (Js.Present ["src/**"]);
                   mkMiseTask "ci:build:docker" (Js.Present ["Dockerfile"])])
               showGroups
               (Main.mkRun [Exited 0 "LISTING"; Exited 1 ""; Exited 0 ""] []))))
  = [("projects", ". = ci:build")].
Proof.
  assert (Hp : inputs "ci:build" "abc123" "task-prefix" = Returned "ci:build")
    by reflexivity.
  assert (Hb : inputs "ci:build" "abc123" "base-ref" = Returned "abc123")
    by reflexivity.
  assert (Hne : "abc123" <> "") by discriminate.
  assert (Hproc :
    fst (scriptedProcess [Exited 0 "LISTING"; Exited 1 ""; Exited 0 ""]
           "mise" ["tasks"; "ls"; "--all"; "--json"])
    = Exited 0 "LISTING") by reflexivity.
  assert (Hj :
    parseListing "LISTING"
      [mkMiseTask "ci:build" (Js.Present ["src/**"]);
       mkMiseTask "ci:build:docker" (Js.Present ["Dockerfile"])] "LISTING"
    = Some [mkMiseTask "ci:build" (Js.Present ["src/**"]);
            mkMiseTask "ci:build:docker" (Js.Present ["Dockerfile"])])
    by reflexivity.
  rewrite (proj1 (proj2
             (run_with_base_ref (list ProcessEnd) scriptedProcess
                (inputs "ci:build" "abc123")
                (parseListing "LISTING"
                   [mkMiseTask "ci:build" (Js.Present ["src/**"]);
                    mkMiseTask "ci:build:docker" (Js.Present ["Dockerfile"])])
                showGroups
                (Main.mkRun [Exited 0 "LISTING"; Exited 1 ""; Exited 0 ""] [])
                "ci:build" "abc123" "LISTING" _ Hp Hb Hne Hproc Hj))).
  reflexivity.
Defined.
